(** * la-tripods: the tripod-library optimizer (src/la-tripods.cc)

    A shallow embedding of [Score::BetterThan], of the tripod index built at
    the top of [Optimize] and of its backtracking [while] loop, followed by
    the properties of the search that the specification states.

    Conventions.
    - Unsigned machine integers are [Z] with the wrap-around written out
      ([u8], [u32], [u64]); [int] is [Z] wrapped by [s32].
    - [Item*] pointers into the [items] vector are indices into the list.
    - The [assignments] vector is a list in vector order: frame 1 first,
      [back()] last.
    - One iteration of the [while] loop is [loop_body]; [loop] iterates it
      with fuel, and [Optimize] returns the state at loop exit: the catalog
      with its [used] flags, the best score, and everything printed.
    - Vector and array accesses are total lookups ([!!!]); lemma
      [accesses_in_bounds] shows that in a run on a well-formed catalog
      they stay within bounds, so that the defaults play no part. *)

From Stdlib Require Import ZArith Lia.
From stdpp Require Import base numbers list.

Local Open Scope Z_scope.

(** ** Machine integers *)

Definition u8 (z : Z) : Z := z mod 2 ^ 8.
Definition u32 (z : Z) : Z := z mod 2 ^ 32.
Definition u64 (z : Z) : Z := z mod 2 ^ 64.
(** Two's complement [int]. *)
Definition s32 (z : Z) : Z := (z + 2 ^ 31) mod 2 ^ 32 - 2 ^ 31.

(** ** Data model *)

(** [constexpr uint8_t kRows = 6], [kTripods = 3]. *)
Definition kRows : nat := 6.
Definition kTripods : nat := 3.

(** [using Book = array<uint8_t, kRows>]. *)
Abbreviation Book := (list Z).

Module Item.
(** [struct Item]: [row] and the entries of [tripods] are [uint8_t], [cost]
    is [uint16_t]; [tripods] has [kTripods] entries, 0 meaning none. *)
Record t : Type := mk { row : nat; cost : Z; tripods : list nat; used : bool }.

Definition set_used (b : bool) (it : t) : t :=
  mk (row it) (cost it) (tripods it) b.

(** The ranges of the fields: [row] within [0, kRows) as the source asks,
    the others as their types have them. *)
Definition wf (it : t) : Prop :=
  (row it < kRows)%nat /\ 0 <= cost it < 2 ^ 16 /\
  length (tripods it) = kTripods /\ Forall (fun tr => (tr < 256)%nat) (tripods it).
End Item.

#[global] Instance Item_inhabited : Inhabited Item.t :=
  populate (Item.mk 0 0 [] false).

Module Score.
(** [struct Score]: [tripods] is a [uint64_t] bit set, [cost] a [uint32_t]. *)
Record t : Type := mk { tripods : Z; cost : Z }.

(** [Score best_score = {}]. *)
Definition zero : t := mk 0 0.

Fixpoint popcount_pos (p : positive) : Z :=
  match p with
  | xH => 1
  | xO q => popcount_pos q
  | xI q => 1 + popcount_pos q
  end.

(** [std::popcount] on an unsigned value. *)
Definition popcount (x : Z) : Z :=
  match x with
  | Zpos p => popcount_pos p
  | _ => 0
  end.

(** [tripod_count(uint64_t mask = -1)]. *)
Definition all_mask : Z := u64 (-1).
Definition tripod_count (x : t) (mask : Z) : Z := popcount (Z.land (tripods x) mask).

(** The tuple built by the lambda [score]: two [int]s and [-x.cost], which is
    evaluated in [uint32_t]. *)
Definition key (prio_mask : Z) (x : t) : Z * Z * Z :=
  (tripod_count x prio_mask, tripod_count x all_mask, u32 (- cost x)).

(** [operator<] of [std::tuple]: lexicographic. *)
Definition tuple_lt (a b : Z * Z * Z) : bool :=
  match a, b with
  | (a0, a1, a2), (b0, b1, b2) =>
      if bool_decide (a0 < b0) then true
      else if bool_decide (b0 < a0) then false
      else if bool_decide (a1 < b1) then true
      else if bool_decide (b1 < a1) then false
      else bool_decide (a2 < b2)
  end.

(** The tuple of [this] compared by [>] with the tuple of [other]. *)
Definition BetterThan (this other : t) (prio_mask : Z) : bool :=
  tuple_lt (key prio_mask other) (key prio_mask this).
End Score.

(** [struct Assignment]: [item] is a [size_t] cursor into the candidate list
    of the frame's tripod, [size_t(-1)] before the first candidate. *)
Record Assignment : Type := mkAssignment { item : Z; score : Score.t }.

Definition NO_ITEM : Z := u64 (-1).
Definition Assignment_default : Assignment := mkAssignment NO_ITEM Score.zero.

#[global] Instance Assignment_inhabited : Inhabited Assignment :=
  populate Assignment_default.

(** One "New best assignment" block written to [cout]: the score printed in
    its header and the indices of the "Use item" lines. *)
Record Report : Type := mkReport { report_score : Score.t; report_items : list nat }.

(** The variables of [Optimize] that change while the loop runs. *)
Record State : Type := mkState {
  items : list Item.t;
  book : Book;
  assignments : list Assignment;
  best_score : Score.t;
  output : list Report
}.

(** ** The tripod index (lines 72-79) *)

(** The body of the inner [for]: skip 0, grow the index, append the item. *)
Definition index_tripod (i : nat) (tripods : list (list nat)) (tripod : nat)
  : list (list nat) :=
  if bool_decide (tripod = 0%nat) then tripods
  else
    let tripods :=
      if bool_decide (length tripods < tripod)%nat then resize tripod [] tripods
      else tripods in
    alter (fun v => v ++ [i]) (tripod - 1)%nat tripods.

Definition index_item (tripods : list (list nat)) (p : nat * Item.t)
  : list (list nat) :=
  fold_left (index_tripod p.1) (Item.tripods p.2) tripods.

Definition build_index (items : list Item.t) : list (list nat) :=
  fold_left index_item (imap pair items) [].

(** ** The search loop (lines 84-132) *)

(** The indices [i] with [items[i].used], in order. *)
Fixpoint used_from (i : nat) (items : list Item.t) : list nat :=
  match items with
  | [] => []
  | it :: rest =>
      if Item.used it then i :: used_from (S i) rest else used_from (S i) rest
  end.

Definition used_items (items : list Item.t) : list nat := used_from 0 items.

(** [v[j]->used || !book[v[j]->row]] for the item [p = v[j]]. *)
Definition busy (items : list Item.t) (book : Book) (p : nat) : bool :=
  Item.used (items !!! p) || bool_decide (book !!! Item.row (items !!! p) = 0).

(** The [do]-[while] of lines 102-105 from cursor value [j] on, [rest] being
    the candidates from [v[j]]: the first cursor whose item is free, or
    [None] when the cursor reaches [v.size()]. *)
Fixpoint scan (items : list Item.t) (book : Book) (rest : list nat) (j : Z)
  : option Z :=
  match rest with
  | [] => None
  | p :: rest' => if busy items book p then scan items book rest' (j + 1) else Some j
  end.

(** Lines 91-92: [v[a.item]->used = false; ++book[v[a.item]->row]]. *)
Definition release (p : nat) (st : State) : State :=
  mkState (alter (Item.set_used false) p (items st))
          (alter (fun n => u8 (n + 1)) (Item.row (items st !!! p)) (book st))
          (assignments st) (best_score st) (output st).

(** [pop: assignments.pop_back()]. *)
Definition pop (st : State) : State :=
  mkState (items st) (book st) (removelast (assignments st))
          (best_score st) (output st).

(** The shifts of the source are undefined when the count reaches the width
    of the left operand: [1 << n] for [n >= 32] (line 93) and
    [uint64_t{1} << n] for [n >= 64] (lines 70 and 112). The results there
    are left open: the engine is modelled over any pair of functions giving
    them. *)
Record Shifts : Type := mkShifts {
  undef_shl_int : Z -> Z;
  undef_shl_u64 : Z -> Z
}.

Section Engine.

Variable undef : Shifts.

(** [1 << n], an [int]: for [n = 31] the result wraps to [INT_MIN]. *)
Definition shl_int (n : Z) : Z :=
  if bool_decide (0 <= n < 32) then s32 (Z.shiftl 1 n) else s32 (undef_shl_int undef n).

(** [uint64_t{1} << n]. *)
Definition shl_u64 (n : Z) : Z :=
  if bool_decide (0 <= n < 64) then u64 (Z.shiftl 1 n) else u64 (undef_shl_u64 undef n).

(** Line 70. *)
Definition make_prio_mask (prio_tripods : Z) : Z := u64 (shl_u64 prio_tripods - 1).

(** Lines 110-113: the bits of the item's tripods added to [tripods]. *)
Definition add_tripods (tripods : Z) (ts : list nat) : Z :=
  fold_left
    (fun acc t => if bool_decide (t = 0%nat) then acc
                  else Z.lor acc (shl_u64 (Z.of_nat t - 1)))
    ts tripods.

Section Loop.

Variable prio_tripods : Z.
Variable prio_mask : Z.
Variable tripods : list (list nat).

(** Lines 109-113: the score of a frame that takes item [p] above [prev]. *)
Definition frame_score (items : list Item.t) (prev : Assignment) (p : nat) : Score.t :=
  Score.mk (add_tripods (Score.tripods (score prev)) (Item.tripods (items !!! p)))
           (u32 (Score.cost (score prev) + Item.cost (items !!! p))).

(** Lines 107-127, for the free candidate at cursor [j] of [v]: take the
    item, score the frame, then either push the frames up to the last tripod
    or compare with the best score and report. *)
Definition take_item (v : list nat) (prev : Assignment) (j : Z) (st : State)
  : State :=
  let p := v !!! Z.to_nat j in
  let items' := alter (Item.set_used true) p (items st) in
  let book' := alter (fun n => u8 (n - 1)) (Item.row (items st !!! p)) (book st) in
  let sc := frame_score (items st) prev p in
  let assignments' := removelast (assignments st) ++ [mkAssignment j sc] in
  if bool_decide (length assignments' ≠ length tripods) then
    mkState items' book'
            (resize (length tripods) (mkAssignment NO_ITEM sc) assignments')
            (best_score st) (output st)
  else if Score.BetterThan sc (best_score st) prio_mask then
    mkState items' book' assignments' sc
            (output st ++ [mkReport sc (used_items items')])
  else
    mkState items' book' assignments' (best_score st) (output st).

(** Lines 102-128: advance the cursor of the last frame to the next free
    candidate and take it, or pop the frame when there is none. *)
Definition try_next (v : list nat) (a prev : Assignment) (st : State) : State :=
  let next := u64 (item a + 1) in
  match scan (items st) (book st) (drop (Z.to_nat next) v) next with
  | None => pop st
  | Some j => take_item v prev j st
  end.

(** One iteration of the [while] loop, entered with [assignments] not empty. *)
Definition loop_body (st : State) : State :=
  let tripod := Z.of_nat (length (assignments st)) mod 2 ^ 8 in
  let v := tripods !!! Z.to_nat (tripod - 1) in
  let a := default Assignment_default (last (assignments st)) in
  let prev :=
    if bool_decide (1 < tripod) then assignments st !!! Z.to_nat (tripod - 2)
    else Assignment_default in
  if bool_decide (item a ≠ NO_ITEM) then
    try_next v a prev (release (v !!! Z.to_nat (item a)) st)
  else if bool_decide
            (Z.land (Score.tripods (score prev)) (u64 (shl_int (tripod - 1))) ≠ 0)
  then pop st
  else if bool_decide (Z.land (Score.tripods (score a)) prio_mask ≠ prio_mask)
          && bool_decide (prio_tripods < tripod)
  then pop st
  else try_next v a prev st.

(** The iteration with prune 2.a (line 93) switched off, as the
    specification's redundancy-prune soundness property supposes: the same
    body without the branch on the inherited bit set. *)
Definition loop_body_no_redundancy_prune (st : State) : State :=
  let tripod := Z.of_nat (length (assignments st)) mod 2 ^ 8 in
  let v := tripods !!! Z.to_nat (tripod - 1) in
  let a := default Assignment_default (last (assignments st)) in
  let prev :=
    if bool_decide (1 < tripod) then assignments st !!! Z.to_nat (tripod - 2)
    else Assignment_default in
  if bool_decide (item a ≠ NO_ITEM) then
    try_next v a prev (release (v !!! Z.to_nat (item a)) st)
  else if bool_decide (Z.land (Score.tripods (score a)) prio_mask ≠ prio_mask)
          && bool_decide (prio_tripods < tripod)
  then pop st
  else try_next v a prev st.

(** [while (!assignments.empty()) body], with fuel: [None] when the fuel
    runs out before the loop exits. *)
Fixpoint loop_with (body : State -> State) (fuel : nat) (st : State)
  : option State :=
  match assignments st with
  | [] => Some st
  | _ :: _ =>
      match fuel with
      | O => None
      | S fuel' => loop_with body fuel' (body st)
      end
  end.

Definition loop : nat -> State -> option State := loop_with loop_body.

(** The state after [n] iterations, or at loop exit when it comes first. *)
Fixpoint after_with (body : State -> State) (n : nat) (st : State) : State :=
  match n with
  | O => st
  | S n' =>
      match assignments st with
      | [] => st
      | _ :: _ => after_with body n' (body st)
      end
  end.

Definition after : nat -> State -> State := after_with loop_body.

End Loop.

(** The state on entry to the loop (lines 70-82). *)
Definition initial (items : list Item.t) (book : Book) : State :=
  mkState items book
          (replicate (length (build_index items)) Assignment_default)
          Score.zero [].

(** [Optimize(items, prio_tripods, book)]: the state at loop exit. *)
Definition Optimize (fuel : nat) (items : list Item.t) (prio_tripods : Z)
  (book : Book) : option State :=
  loop prio_tripods (make_prio_mask prio_tripods) (build_index items) fuel
       (initial items book).

(** The state of [Optimize] after [n] iterations of its loop. *)
Definition Optimize_after (n : nat) (items : list Item.t) (prio_tripods : Z)
  (book : Book) : State :=
  after prio_tripods (make_prio_mask prio_tripods) (build_index items) n
        (initial items book).

Definition Optimize_no_redundancy_prune (fuel : nat) (items : list Item.t)
  (prio_tripods : Z) (book : Book) : option State :=
  loop_with (loop_body_no_redundancy_prune prio_tripods
               (make_prio_mask prio_tripods) (build_index items))
            fuel (initial items book).

End Engine.

(** What x86-64 does with the shifts the language leaves undefined: the
    count is taken modulo the operand width. *)
Definition x86 : Shifts :=
  mkShifts (fun n => Z.shiftl 1 (n mod 32)) (fun n => Z.shiftl 1 (n mod 64)).

(** ** The scenario of the specification's section 8 *)

Definition item_A : Item.t := Item.mk 0 5 [1; 0; 0]%nat false.
Definition item_B : Item.t := Item.mk 1 3 [1; 2; 0]%nat false.
Definition item_C : Item.t := Item.mk 0 1 [2; 0; 0]%nat false.
Definition scenario_items : list Item.t := [item_A; item_B; item_C].
Definition scenario_book : Book := [1; 1; 0; 0; 0; 0].

(** The state in which [Optimize] leaves the scenario. *)
Definition scenario_final : State :=
  mkState scenario_items scenario_book [] (Score.mk 3 8)
          [mkReport (Score.mk 3 8) [0; 1]%nat].

(** A catalog with tripods beyond 31: item 0 has tripods 1 and 33, item 1
    has tripod 32. *)
Definition wide_items : list Item.t :=
  [Item.mk 0 0 [1; 33; 0]%nat false; Item.mk 1 0 [32; 0; 0]%nat false].

(** A catalog with no item for the only high-priority tripod. *)
Definition lone_item : Item.t := Item.mk 0 0 [2; 0; 0]%nat false.

(** A catalog whose last tripod has one candidate, of a row that
    [scenario_book] leaves without a slot: item 0 has tripod 1 in row 0,
    item 1 has tripod 2 in row 2. *)
Definition blocked_items : list Item.t :=
  [Item.mk 0 0 [1; 0; 0]%nat false; Item.mk 2 0 [2; 0; 0]%nat false].

(** A catalog entry whose row is outside [0, kRows). *)
Definition malformed_item : Item.t := Item.mk 9 0 [1; 0; 0]%nat false.

(** ** Notions used by the properties *)

(** The number of items of row [c] with the [used] flag set. *)
Definition selected_in (c : nat) (items : list Item.t) : Z :=
  Z.of_nat (length (filter (fun it => Item.used it = true /\ Item.row it = c) items)).

(** The score of a selection of items, accumulated as lines 109-113 do. *)
Definition selection_score (undef : Shifts) (items : list Item.t) (sel : list nat)
  : Score.t :=
  fold_left (fun sc p => frame_score undef items (mkAssignment NO_ITEM sc) p)
            sel Score.zero.

(** A feasible selection: each item once, each an item of the catalog, and
    no row with more items than [book] has slots for it. *)
Definition feasible (items : list Item.t) (book : Book) (sel : list nat) : bool :=
  bool_decide (NoDup sel)
  && forallb (fun p => bool_decide (p < length items)%nat) sel
  && forallb
       (fun c =>
          bool_decide
            (Z.of_nat (length (filter (fun p => Item.row (items !!! p) = c) sel))
             <= book !!! c))
       (seq 0 kRows).

(** The ordering of the specification's section 3, in its words: the key
    (priority tripods, all tripods, minus the total cost), the cost negated
    as an integer, compared lexicographically, larger is better. *)
Definition spec_key (prio_mask : Z) (x : Score.t) : Z * Z * Z :=
  (Score.popcount (Z.land (Score.tripods x) prio_mask),
   Score.popcount (Score.tripods x),
   - Score.cost x).

Definition spec_better (prio_mask : Z) (x y : Score.t) : bool :=
  Score.tuple_lt (spec_key prio_mask y) (spec_key prio_mask x).

(** What an item adds to the count of row [c]. *)
Definition sel_bit (c : nat) (it : Item.t) : Z :=
  if decide (Item.used it = true /\ Item.row it = c) then 1 else 0.

(** The inputs [Optimize] is written for: fields within their types, one
    capacity per row, [used] flags clear, a catalog that fits in memory. *)
Definition wf_items (items : list Item.t) : Prop :=
  Forall Item.wf items /\ Z.of_nat (length items) < 2 ^ 62.

Definition all_unused (items : list Item.t) : Prop :=
  Forall (fun it => Item.used it = false) items.

Definition wf_book (book : Book) : Prop :=
  length book = kRows /\ Forall (fun n => 0 <= n < 2 ^ 8) book.

(** The item a frame holds: the candidate under its cursor, for the frame
    at index [k] of the vector (the frame of tripod [k + 1]). *)
Definition frame_item (tripods : list (list nat)) (k : nat) (a : Assignment)
  : option nat :=
  if bool_decide (item a = NO_ITEM) then None
  else Some ((tripods !!! k) !!! Z.to_nat (item a)).

(** The items held by the frames, from the frame at index [k] on. *)
Fixpoint held_from (tripods : list (list nat)) (k : nat) (frames : list Assignment)
  : list nat :=
  match frames with
  | [] => []
  | a :: rest => option_list (frame_item tripods k a) ++ held_from tripods (S k) rest
  end.

(** The invariant of the search, for a run started on [items0] and [book0]:
    the catalog is the initial one up to [used] flags, the frames hold
    pairwise different items, the used items are exactly the held ones,
    every row's free slots and used items add up to its initial capacity,
    and every cursor that has left [size_t(-1)] is within its candidate
    list. *)
Definition consistent (items0 : list Item.t) (book0 : Book)
  (its : list Item.t) (bk : Book) (frames : list Assignment) : Prop :=
  let tripods := build_index items0 in
  Item.set_used false <$> its = items0 /\
  NoDup (held_from tripods 0 frames) /\
  (forall i, i ∈ held_from tripods 0 frames <->
             exists it, its !! i = Some it /\ Item.used it = true) /\
  length bk = kRows /\
  (forall c, (c < kRows)%nat ->
     0 <= bk !!! c /\ bk !!! c + selected_in c its = book0 !!! c) /\
  (forall k a, frames !! k = Some a -> item a ≠ NO_ITEM ->
     0 <= item a /\ (Z.to_nat (item a) < length (tripods !!! k))%nat).

(** The invariant as a property of states, with the bound on the frames. *)
Definition Inv (items0 : list Item.t) (book0 : Book) (st : State) : Prop :=
  consistent items0 book0 (items st) (book st) (assignments st) /\
  (length (assignments st) <= length (build_index items0))%nat.

(** The best score is the score of the last report, and no report is
    better than it. *)
Definition reports_ok (prio_mask : Z) (st : State) : Prop :=
  best_score st = default Score.zero (report_score <$> last (output st)) /\
  forall r, r ∈ output st ->
            Score.BetterThan (report_score r) (best_score st) prio_mask = false.

(** Candidate lists short enough for their sizes to be [size_t] values. *)
Definition sizes_fit (tripods : list (list nat)) : Prop :=
  Forall (fun v => Z.of_nat (length v) < 2 ^ 64) tripods.

(** The termination measure: the frames read as the digits of a number in
    base [radix], frame 1 the most significant; the digit of a frame is one
    more than the number of candidates its cursor has not passed yet, and a
    popped frame counts 0. *)
Definition frame_weight (tripods : list (list nat)) (k : nat) (a : Assignment) : nat :=
  S (length (tripods !!! k) - Z.to_nat (u64 (item a + 1))).

Definition radix (tripods : list (list nat)) : nat :=
  2 + max_list (length <$> tripods).

Fixpoint weight_from (tripods : list (list nat)) (k : nat) (frames : list Assignment)
  : nat :=
  match frames with
  | [] => 0
  | a :: rest =>
      frame_weight tripods k a * radix tripods ^ (length tripods - S k)
      + weight_from tripods (S k) rest
  end.

Definition search_weight (tripods : list (list nat)) (st : State) : nat :=
  weight_from tripods 0 (assignments st).


(** ** Notions used by the further properties *)

(** The largest tripod of a catalog, 0 when no item has any. *)
Definition largest_tripod (items : list Item.t) : nat :=
  max_list (concat (Item.tripods <$> items)).

(** A list of item indices in catalog order: never descending. *)
Definition catalog_order (v : list nat) : Prop :=
  forall a b x y, (a <= b)%nat -> v !! a = Some x -> v !! b = Some y -> (x <= y)%nat.

(** Lists in catalog order whose entries are at most [b]. *)
Definition ordered_up_to (b : nat) (v : list nat) : Prop :=
  catalog_order v /\ Forall (fun p => (p <= b)%nat) v.

(** Reports in strictly improving order: each is better than all before it. *)
Definition improving (prio_mask : Z) (out : list Report) : Prop :=
  forall i j ri rj, (i < j)%nat -> out !! i = Some ri -> out !! j = Some rj ->
    Score.BetterThan (report_score rj) (report_score ri) prio_mask = true.

(** The frame below the frame at index [k]: [Assignment()] below the first
    (line 88). *)
Definition frame_below (frames : list Assignment) (k : nat) : Assignment :=
  match k with
  | O => Assignment_default
  | S k' => frames !!! k'
  end.

(** The scores of the frames are chained: each is the score of the frame
    below, with the item of the frame added when it holds one (lines 109-113
    for a frame that took an item, line 116 for a fresh one).  [its] is the
    catalog the rows, costs and tripods are read from. *)
Definition chained (undef : Shifts) (tripods : list (list nat)) (its : list Item.t)
  (frames : list Assignment) : Prop :=
  forall k a, frames !! k = Some a ->
    score a = match frame_item tripods k a with
              | None => score (frame_below frames k)
              | Some p => frame_score undef its (frame_below frames k) p
              end.

(** Every frame beyond the priority tripods that holds an item stands on a
    score with all the priority tripods (line 95). *)
Definition priority_kept (prio_tripods prio_mask : Z) (frames : list Assignment)
  : Prop :=
  forall k a, frames !! k = Some a -> item a ≠ NO_ITEM ->
    prio_tripods < Z.of_nat (S k) ->
    Z.land (Score.tripods (score (frame_below frames k))) prio_mask = prio_mask.

(** The sum of the costs of a selection, as an integer. *)
Definition total_cost (items : list Item.t) (sel : list nat) : Z :=
  fold_right Z.add 0 ((fun p => Item.cost (items !!! p)) <$> sel).

(** What a run keeps about its frames: the invariant on the catalog and the
    book, the chain of scores over the catalog on entry, and the priority
    tripods below the frames beyond them. *)
Definition scored (undef : Shifts) (prio_tripods : Z) (items0 : list Item.t)
  (book0 : Book) (st : State) : Prop :=
  Inv items0 book0 st /\
  chained undef (build_index items0) items0 (assignments st) /\
  priority_kept prio_tripods (make_prio_mask undef prio_tripods) (assignments st).
(** ** Machine arithmetic *)

Lemma u64_small (z : Z) : 0 <= z < 2 ^ 64 -> u64 z = z.
Proof. intros H. unfold u64. apply Z.mod_small; lia. Qed.

Lemma u64_range (z : Z) : 0 <= u64 z < 2 ^ 64.
Proof. unfold u64. apply Z.mod_pos_bound. lia. Qed.

Lemma u8_small (z : Z) : 0 <= z < 2 ^ 8 -> u8 z = z.
Proof. intros H. unfold u8. apply Z.mod_small; lia. Qed.

Lemma NO_ITEM_value : NO_ITEM = 2 ^ 64 - 1.
Proof. reflexivity. Qed.

(** ** The loop and its iterates *)

Section LoopFacts.

Variable body : State -> State.

Lemma after_with_exit (n : nat) (st : State) :
  assignments st = [] -> after_with body n st = st.
Proof. intros H. destruct n; simpl; [|rewrite H]; reflexivity. Qed.

Lemma after_with_step (n : nat) (st : State) :
  assignments st ≠ [] -> after_with body (S n) st = after_with body n (body st).
Proof. intros H. simpl. destruct (assignments st); [done|reflexivity]. Qed.

Lemma after_with_S (n : nat) (st : State) :
  assignments (after_with body n st) ≠ [] ->
  after_with body (S n) st = body (after_with body n st).
Proof.
  revert st. induction n as [|n IH]; intros st H.
  - simpl in *. destruct (assignments st); [done|reflexivity].
  - change (after_with body (S (S n)) st) with
      (match assignments st with
       | [] => st
       | _ :: _ => after_with body (S n) (body st)
       end).
    simpl in H. simpl (after_with body (S n) st).
    destruct (assignments st) eqn:E.
    + congruence.
    + apply IH. exact H.
Qed.

(** A property kept by every iteration holds all along the run. *)
Lemma after_with_invariant (P : State -> Prop) :
  (forall st, assignments st ≠ [] -> P st -> P (body st)) ->
  forall n st, P st -> P (after_with body n st).
Proof.
  intros Hstep. induction n as [|n IH]; intros st HP; [exact HP|].
  destruct (decide (assignments st = [])) as [E|Hne].
  - rewrite after_with_exit by exact E. exact HP.
  - rewrite after_with_step by exact Hne. apply IH, Hstep; assumption.
Qed.

(** Once the loop has exited, further iterations change nothing. *)
Lemma after_with_stable (n m : nat) (st : State) :
  assignments (after_with body n st) = [] -> (n <= m)%nat ->
  after_with body m st = after_with body n st.
Proof.
  revert m st. induction n as [|n IH]; intros m st H Hle.
  - simpl in *. apply after_with_exit. exact H.
  - destruct m as [|m]; [lia|]. simpl in *.
    destruct (assignments st); [reflexivity|].
    apply IH; [exact H|lia].
Qed.

(** The loop returns exactly when the frames have run out, with the state
    reached then. *)
Lemma loop_with_Some (fuel : nat) (st final : State) :
  loop_with body fuel st = Some final <->
  assignments (after_with body fuel st) = [] /\ final = after_with body fuel st.
Proof.
  revert st. induction fuel as [|fuel IH]; intros st; simpl.
  - destruct (assignments st) eqn:E; split.
    + intros [= <-]. auto.
    + intros [_ ->]. reflexivity.
    + discriminate.
    + intros [H _]. congruence.
  - destruct (assignments st) eqn:E.
    + split; [intros [= <-]; auto | intros [_ ->]; reflexivity].
    + apply IH.
Qed.

End LoopFacts.

(** ** The candidate scan *)

Lemma scan_Some (its : list Item.t) (bk : Book) (rest : list nat) (j0 j : Z) :
  scan its bk rest j0 = Some j ->
  j0 <= j /\ exists p, rest !! Z.to_nat (j - j0) = Some p /\ busy its bk p = false.
Proof.
  revert j0. induction rest as [|p rest IH]; intros j0; simpl; [discriminate|].
  destruct (busy its bk p) eqn:Hb.
  - intros H. apply IH in H as (Hle & q & Hq & Hfree).
    split; [lia|]. exists q. split; [|exact Hfree].
    replace (Z.to_nat (j - j0)) with (S (Z.to_nat (j - (j0 + 1)))) by lia.
    exact Hq.
  - intros [= <-]. split; [lia|]. exists p.
    replace (j0 - j0) with 0 by lia. auto.
Qed.

Section StepFacts.

Variable undef : Shifts.
Variable prio_tripods prio_mask : Z.
Variable tripods : list (list nat).

Local Abbreviation take := (take_item undef prio_mask tripods).
Local Abbreviation next := (try_next undef prio_mask tripods).
Local Abbreviation body := (loop_body undef prio_tripods prio_mask tripods).

Lemma take_item_assignments (v : list nat) (prev : Assignment) (j : Z) (st : State) :
  let sc := frame_score undef (items st) prev (v !!! Z.to_nat j) in
  assignments (take v prev j st) =
  resize (length tripods) (mkAssignment NO_ITEM sc)
         (removelast (assignments st) ++ [mkAssignment j sc]).
Proof.
  intros sc. unfold take_item. fold sc.
  case_bool_decide as Hlen; simpl; [reflexivity|].
  destruct (Score.BetterThan _ _ _); simpl; symmetry; apply resize_all_alt;
    symmetry; exact Hlen.
Qed.

Lemma take_item_items (v : list nat) (prev : Assignment) (j : Z) (st : State) :
  items (take v prev j st) =
  alter (Item.set_used true) (v !!! Z.to_nat j) (items st).
Proof.
  unfold take_item. case_bool_decide; [reflexivity|].
  destruct (Score.BetterThan _ _ _); reflexivity.
Qed.

Lemma take_item_book (v : list nat) (prev : Assignment) (j : Z) (st : State) :
  book (take v prev j st) =
  alter (fun n => u8 (n - 1)) (Item.row (items st !!! (v !!! Z.to_nat j))) (book st).
Proof.
  unfold take_item. case_bool_decide; [reflexivity|].
  destruct (Score.BetterThan _ _ _); reflexivity.
Qed.

(** [try_next] pops, or takes a free candidate beyond the cursor. *)
Lemma try_next_cases (v : list nat) (a prev : Assignment) (st : State) :
  next v a prev st = pop st \/
  exists j p,
    u64 (item a + 1) <= j /\ v !! Z.to_nat j = Some p /\
    busy (items st) (book st) p = false /\
    next v a prev st = take v prev j st.
Proof.
  unfold try_next.
  destruct (scan _ _ _ _) as [j|] eqn:Hscan; [right|left; reflexivity].
  apply scan_Some in Hscan as (Hle & p & Hp & Hfree).
  exists j, p. repeat split; try assumption.
  rewrite lookup_drop in Hp. rewrite <- Hp. f_equal.
  pose proof (u64_range (item a + 1)). lia.
Qed.

(** The frame the body works on, its candidates and the frame below, for a
    frame vector that fits [uint8_t]. *)
Lemma loop_body_unfold (st : State) (lower : list Assignment) (a : Assignment) :
  assignments st = lower ++ [a] -> (length lower < 255)%nat ->
  let v := tripods !!! length lower in
  let prev := default Assignment_default (last lower) in
  body st =
    if bool_decide (item a ≠ NO_ITEM) then
      next v a prev (release (v !!! Z.to_nat (item a)) st)
    else if bool_decide
              (Z.land (Score.tripods (score prev))
                      (u64 (shl_int undef (Z.of_nat (length lower)))) ≠ 0)
    then pop st
    else if bool_decide (Z.land (Score.tripods (score a)) prio_mask ≠ prio_mask)
            && bool_decide (prio_tripods < Z.of_nat (S (length lower)))
    then pop st
    else next v a prev st.
Proof.
  intros Hst Hlen v prev. unfold loop_body.
  rewrite Hst, last_snoc, length_app. simpl length.
  replace (Z.of_nat (length lower + 1) mod 2 ^ 8) with (Z.of_nat (S (length lower)))
    by (rewrite Z.mod_small; lia).
  replace (Z.to_nat (Z.of_nat (S (length lower)) - 1)) with (length lower) by lia.
  replace (Z.of_nat (S (length lower)) - 1) with (Z.of_nat (length lower)) by lia.
  fold v. simpl default.
  assert (Hprev : (if bool_decide (1 < Z.of_nat (S (length lower)))
                   then (lower ++ [a]) !!! Z.to_nat (Z.of_nat (S (length lower)) - 2)
                   else Assignment_default) = prev).
  { unfold prev. case_bool_decide as H1.
    - rewrite last_lookup.
      replace (Z.to_nat (Z.of_nat (S (length lower)) - 2)) with (pred (length lower)) by lia.
      rewrite lookup_total_app_l by lia.
      rewrite list_lookup_total_alt. reflexivity.
    - destruct lower; [reflexivity|simpl in H1; lia]. }
  rewrite Hprev. reflexivity.
Qed.

End StepFacts.
(** ** How one iteration changes the frames *)

Section Frames.

Variable undef : Shifts.
Variable prio_tripods prio_mask : Z.
Variable tripods : list (list nat).

Local Abbreviation body := (loop_body undef prio_tripods prio_mask tripods).

Lemma pop_assignments (st : State) (lower : list Assignment) (a : Assignment) :
  assignments st = lower ++ [a] -> assignments (pop st) = lower.
Proof. intros H. simpl. rewrite H. apply removelast_last. Qed.

(** An iteration pops the last frame, or moves its cursor forward to a
    candidate and fills the vector up to the last tripod with fresh frames. *)
Lemma loop_body_assignments (st : State) (lower : list Assignment) (a : Assignment) :
  assignments st = lower ++ [a] -> (length lower < 255)%nat ->
  assignments (body st) = lower \/
  exists j sc,
    u64 (item a + 1) <= j /\ (Z.to_nat j < length (tripods !!! length lower))%nat /\
    assignments (body st) =
      resize (length tripods) (mkAssignment NO_ITEM sc) (lower ++ [mkAssignment j sc]).
Proof.
  intros Hst Hlen. rewrite (loop_body_unfold _ _ _ _ st lower a Hst Hlen).
  set (v := tripods !!! length lower).
  set (prev := default Assignment_default (last lower)).
  assert (Hnext : forall st', assignments st' = lower ++ [a] ->
    assignments (try_next undef prio_mask tripods v a prev st') = lower \/
    exists j sc,
      u64 (item a + 1) <= j /\ (Z.to_nat j < length v)%nat /\
      assignments (try_next undef prio_mask tripods v a prev st') =
        resize (length tripods) (mkAssignment NO_ITEM sc) (lower ++ [mkAssignment j sc])).
  { intros st' Hst'.
    destruct (try_next_cases undef prio_mask tripods v a prev st')
      as [-> | (j & p & Hj & Hp & _ & ->)].
    - left. eapply pop_assignments; eassumption.
    - right. exists j. eexists. split; [exact Hj|]. split.
      + apply lookup_lt_Some in Hp. exact Hp.
      + rewrite take_item_assignments, Hst', removelast_last. reflexivity. }
  repeat case_bool_decide; simpl;
    first [ apply Hnext; exact Hst
          | left; eapply pop_assignments; exact Hst
          | idtac ].
Qed.

Lemma loop_body_length (st : State) :
  assignments st ≠ [] ->
  (length (assignments st) <= length tripods)%nat -> (length tripods <= 255)%nat ->
  (length (assignments (body st)) <= length tripods)%nat /\
  (assignments (body st) = [] -> length (assignments st) = 1%nat).
Proof.
  intros Hne Hlen HT.
  destruct (assignments st) as [|a0 rest] eqn:E using rev_ind; [done|]. clear IHrest.
  rewrite length_app in Hlen. simpl in Hlen.
  destruct (loop_body_assignments st rest a0 E ltac:(lia)) as [-> | (j & sc & _ & _ & ->)].
  - split; [lia|]. intros ->. reflexivity.
  - rewrite length_resize. split; [lia|].
    intros H. apply (f_equal length) in H. rewrite length_resize in H.
    simpl in H. lia.
Qed.

(** ** The termination measure decreases *)

Lemma weight_from_app (k : nat) (F1 F2 : list Assignment) :
  weight_from tripods k (F1 ++ F2) =
  (weight_from tripods k F1 + weight_from tripods (k + length F1) F2)%nat.
Proof.
  revert k. induction F1 as [|a F1 IH]; intros k; simpl.
  - f_equal. lia.
  - rewrite IH. replace (S k + length F1)%nat with (k + S (length F1))%nat by lia. lia.
Qed.

Lemma radix_pos : (2 <= radix tripods)%nat.
Proof. unfold radix. lia. Qed.

Lemma frame_weight_bound (k : nat) (a : Assignment) :
  (k < length tripods)%nat -> (frame_weight tripods k a < radix tripods)%nat.
Proof.
  intros Hk. unfold frame_weight, radix.
  destruct (lookup_lt_is_Some_2 tripods k Hk) as [v Hv].
  rewrite (list_lookup_total_correct _ _ _ Hv).
  assert (length v ∈ length <$> tripods).
  { apply list_elem_of_fmap. exists v. split; [reflexivity|].
    eapply list_elem_of_lookup_2. exact Hv. }
  pose proof (max_list_elem_of_le _ _ H). lia.
Qed.

Lemma weight_from_bound (k : nat) (F : list Assignment) :
  (k + length F <= length tripods)%nat ->
  (weight_from tripods k F < radix tripods ^ (length tripods - k))%nat.
Proof.
  revert k. induction F as [|a F IH]; intros k Hk; cbn [weight_from length] in *.
  - pose proof radix_pos.
    assert (radix tripods ^ (length tripods - k) ≠ 0)%nat
      by (apply Nat.pow_nonzero; lia).
    lia.
  - specialize (IH (S k) ltac:(lia)).
    pose proof (frame_weight_bound k a ltac:(lia)).
    replace (length tripods - k)%nat with (S (length tripods - S k))%nat by lia.
    rewrite Nat.pow_succ_r'.
    set (P := (radix tripods ^ (length tripods - S k))%nat) in *.
    assert ((frame_weight tripods k a + 1) * P <= radix tripods * P)%nat
      by (apply Nat.mul_le_mono_r; lia).
    lia.
Qed.

Lemma loop_body_decreases (st : State) :
  sizes_fit tripods ->
  assignments st ≠ [] ->
  (length (assignments st) <= length tripods)%nat -> (length tripods <= 255)%nat ->
  (search_weight tripods (body st) < search_weight tripods st)%nat.
Proof.
  intros Hfit Hne Hlen HT. unfold search_weight.
  destruct (assignments st) as [|a lower] eqn:E using rev_ind; [done|]. clear IHlower.
  rewrite length_app in Hlen. simpl in Hlen.
  rewrite weight_from_app. cbn [weight_from]. rewrite !Nat.add_0_l, !Nat.add_0_r.
  set (n := length lower) in *.
  set (P := (radix tripods ^ (length tripods - S n))%nat).
  assert (HP : (0 < P)%nat).
  { pose proof radix_pos.
    assert (P ≠ 0)%nat by (apply Nat.pow_nonzero; lia). lia. }
  destruct (loop_body_assignments st lower a E ltac:(lia)) as [-> | (j & sc & Hj & Hjv & ->)].
  - unfold frame_weight. nia.
  - rewrite resize_ge by (rewrite length_app; simpl; lia).
    rewrite <- app_assoc, weight_from_app. cbn [weight_from app]. rewrite !Nat.add_0_l. fold n P.
    pose proof (weight_from_bound (S n)
                  (replicate (length tripods - length (lower ++ [mkAssignment j sc]))
                             (mkAssignment NO_ITEM sc))) as Hseeds.
    rewrite length_replicate, length_app in Hseeds. simpl in Hseeds. fold n in Hseeds.
    specialize (Hseeds ltac:(lia)). fold P in Hseeds.
    rewrite length_app in *. simpl length in *. fold n in Hjv |- *.
    replace (n + 1)%nat with (S n) in * by lia.
    assert (Hv : Z.of_nat (length (tripods !!! n)) < 2 ^ 64).
    { destruct (tripods !! n) as [v|] eqn:Hv.
      - rewrite (list_lookup_total_correct _ _ _ Hv).
        eapply (proj1 (Forall_forall _ _) Hfit), list_elem_of_lookup_2, Hv.
      - rewrite list_lookup_total_alt, Hv. simpl. lia. }
    pose proof (u64_range (item a + 1)).
    assert ((frame_weight tripods n (mkAssignment j sc) + 1
             <= frame_weight tripods n a)%nat) as Hw.
    { unfold frame_weight. simpl. rewrite u64_small by lia. lia. }
    assert ((frame_weight tripods n (mkAssignment j sc) + 1) * P
            <= frame_weight tripods n a * P)%nat
      by (apply Nat.mul_le_mono_r; exact Hw).
    lia.
Qed.

(** From any state whose frames fit the index, the loop exits within
    [search_weight] iterations. *)
Lemma after_exits (w : nat) (st : State) :
  sizes_fit tripods -> (length tripods <= 255)%nat ->
  (search_weight tripods st <= w)%nat ->
  (length (assignments st) <= length tripods)%nat ->
  assignments (after undef prio_tripods prio_mask tripods w st) = [].
Proof.
  intros Hfit HT. unfold after.
  revert st. induction w as [|w IH]; intros st Hw Hlen;
    (destruct (decide (assignments st = [])) as [E|Hne];
     [rewrite after_with_exit by exact E; exact E|]).
  - pose proof (loop_body_decreases st Hfit Hne Hlen HT). lia.
  - rewrite after_with_step by exact Hne. apply IH.
    + pose proof (loop_body_decreases st Hfit Hne Hlen HT). lia.
    + apply loop_body_length; assumption.
Qed.

Lemma after_length (n : nat) (st : State) :
  (length tripods <= 255)%nat ->
  (length (assignments st) <= length tripods)%nat ->
  (length (assignments (after undef prio_tripods prio_mask tripods n st))
   <= length tripods)%nat.
Proof.
  intros HT. revert n st.
  apply (after_with_invariant _
           (fun st => (length (assignments st) <= length tripods)%nat)).
  intros st Hne Hlen. apply loop_body_length; assumption.
Qed.

End Frames.

(** The first of the iteration counts at which a decidable event holds. *)
Lemma first_time (P : nat -> Prop) (Hdec : forall n, Decision (P n)) (n : nat) :
  P n -> exists m, (m <= n)%nat /\ P m /\ forall k, (k < m)%nat -> ~ P k.
Proof.
  assert (Hscan : forall b,
    (forall k, (k < b)%nat -> ~ P k) \/
    exists m, (m < b)%nat /\ P m /\ forall k, (k < m)%nat -> ~ P k).
  { induction b as [|b [Hnone|(m & Hm & HPm & Hmin)]].
    - left. intros k Hk. lia.
    - destruct (decide (P b)) as [Hb|Hb].
      + right. exists b. split; [lia|]. auto.
      + left. intros k Hk. destruct (decide (k = b)) as [->|]; [exact Hb|].
        apply Hnone. lia.
    - right. exists m. split; [lia|]. auto. }
  intros Hn. destruct (Hscan n) as [Hnone|(m & Hm & HPm & Hmin)].
  - exists n. split; [lia|]. auto.
  - exists m. split; [lia|]. auto.
Qed.
(** ** The tripod index *)

Lemma length_index_tripod (i : nat) (idx : list (list nat)) (t : nat) :
  length (index_tripod i idx t) = (length idx `max` t)%nat.
Proof.
  unfold index_tripod. case_bool_decide as H0; [lia|].
  rewrite length_alter. case_bool_decide; [rewrite length_resize|]; lia.
Qed.

(** Growing the index adds empty lists only. *)
Lemma lookup_total_grow (idx : list (list nat)) (t k : nat) :
  (length idx < t)%nat -> resize t [] idx !!! k = idx !!! k.
Proof.
  intros Hlt. rewrite !list_lookup_total_alt.
  destruct (decide (k < length idx)%nat) as [Hk|Hk].
  - rewrite lookup_resize by lia. reflexivity.
  - rewrite (lookup_ge_None_2 idx k) by lia.
    destruct (decide (k < t)%nat).
    + rewrite lookup_resize_new by lia. reflexivity.
    + rewrite lookup_resize_old by lia. reflexivity.
Qed.

(** Item [i] is appended to the list of tripod [t]; nothing else changes. *)
Lemma index_tripod_spec (i : nat) (idx : list (list nat)) (t k p : nat) :
  p ∈ index_tripod i idx t !!! k <-> p ∈ idx !!! k \/ (p = i /\ t = S k).
Proof.
  unfold index_tripod. case_bool_decide as H0.
  { split; [auto|]. intros [H|[_ H]]; [exact H|lia]. }
  set (idx' := if bool_decide (length idx < t)%nat then resize t [] idx else idx).
  assert (Hsame : forall k', idx' !!! k' = idx !!! k').
  { intros k'. unfold idx'. case_bool_decide; [apply lookup_total_grow; lia|reflexivity]. }
  assert (Hlen : (t - 1 < length idx')%nat).
  { unfold idx'. case_bool_decide; [rewrite length_resize|]; lia. }
  destruct (decide (k = t - 1)%nat) as [->|Hk].
  - rewrite list_lookup_total_alter_eq by exact Hlen.
    rewrite Hsame, elem_of_app, list_elem_of_singleton.
    split; intros [H|H]; auto; right; [split; [exact H|lia]|tauto].
  - rewrite list_lookup_total_alter_ne by congruence. rewrite Hsame.
    split; [auto|]. intros [H|[_ H]]; [exact H|lia].
Qed.

Lemma index_tripods_spec (i : nat) (ts : list nat) (idx : list (list nat)) (k p : nat) :
  p ∈ fold_left (index_tripod i) ts idx !!! k <->
  p ∈ idx !!! k \/ (p = i /\ S k ∈ ts).
Proof.
  revert idx. induction ts as [|t ts IH]; intros idx; simpl.
  - split; [auto|]. intros [H|[_ H]]; [exact H|]. inversion H.
  - rewrite IH, index_tripod_spec, elem_of_cons. intuition congruence.
Qed.

Lemma index_items_spec (l : list (nat * Item.t)) (idx : list (list nat)) (k p : nat) :
  p ∈ fold_left index_item l idx !!! k <->
  p ∈ idx !!! k \/ exists it, (p, it) ∈ l /\ S k ∈ Item.tripods it.
Proof.
  revert idx. induction l as [|[i it] l IH]; intros idx; simpl.
  - split; [auto|]. intros [H|(it & H & _)]; [exact H|]. inversion H.
  - rewrite IH. unfold index_item. simpl. rewrite index_tripods_spec. split.
    + intros [[H|[-> H]]|(it' & H & Hk)]; [auto| |].
      * right. exists it. split; [left|exact H].
      * right. exists it'. split; [right; exact H|exact Hk].
    + intros [H|(it' & H & Hk)]; [auto|].
      apply elem_of_cons in H as [[= -> ->]|H]; [auto|].
      right. exists it'. auto.
Qed.

(** The candidates of tripod [k + 1] are the items that list it. *)
Lemma build_index_spec (items : list Item.t) (k p : nat) :
  p ∈ build_index items !!! k <->
  exists it, items !! p = Some it /\ S k ∈ Item.tripods it.
Proof.
  unfold build_index. rewrite index_items_spec. split.
  - intros [H|(it & H & Hk)].
    + rewrite lookup_total_nil in H. inversion H.
    + apply elem_of_lookup_imap in H as (i & y & [= -> ->] & Hy). eauto.
  - intros (it & Hit & Hk). right. exists it. split; [|exact Hk].
    apply (elem_of_lookup_imap_2 pair). exact Hit.
Qed.

Lemma build_index_valid (items : list Item.t) (k p : nat) :
  p ∈ build_index items !!! k -> (p < length items)%nat.
Proof.
  intros H. apply build_index_spec in H as (it & Hit & _).
  eapply lookup_lt_Some. exact Hit.
Qed.

(** The number of lists is the largest tripod: at most 255 for [uint8_t]
    tripods. *)
Lemma index_tripods_length (i : nat) (ts : list nat) (idx : list (list nat)) (b : nat) :
  (length idx <= b)%nat -> Forall (fun t => (t <= b)%nat) ts ->
  (length (fold_left (index_tripod i) ts idx) <= b)%nat.
Proof.
  revert idx. induction ts as [|t ts IH]; intros idx Hidx Hts; simpl; [exact Hidx|].
  inversion Hts; subst. apply IH; [|assumption].
  rewrite length_index_tripod. lia.
Qed.

Lemma index_items_length (l : list (nat * Item.t)) (idx : list (list nat)) (b : nat) :
  (length idx <= b)%nat ->
  Forall (fun p => Forall (fun t => (t <= b)%nat) (Item.tripods p.2)) l ->
  (length (fold_left index_item l idx) <= b)%nat.
Proof.
  revert idx. induction l as [|p l IH]; intros idx Hidx Hl; simpl; [exact Hidx|].
  inversion Hl; subst. apply IH; [|assumption].
  apply index_tripods_length; assumption.
Qed.

Lemma Forall_imap_pair (P : Item.t -> Prop) (items : list Item.t) :
  Forall P items -> Forall (fun p : nat * Item.t => P p.2) (imap pair items).
Proof.
  intros H. apply Forall_forall. intros [i it] Hin.
  apply elem_of_lookup_imap in Hin as (i' & y & [= -> ->] & Hy).
  eapply (proj1 (Forall_forall _ _) H), list_elem_of_lookup_2, Hy.
Qed.

Lemma build_index_length (items : list Item.t) :
  Forall Item.wf items -> (length (build_index items) <= 255)%nat.
Proof.
  intros Hwf. apply index_items_length; [simpl; lia|].
  apply (Forall_imap_pair (fun it => Forall (fun t => (t <= 255)%nat) (Item.tripods it))).
  eapply Forall_impl; [exact Hwf|]. intros it (_ & _ & _ & Ht).
  eapply Forall_impl; [exact Ht|]. simpl. lia.
Qed.

(** The lists hold one entry per tripod slot of the catalog at most. *)
Lemma sum_alter_snoc (i k : nat) (idx : list (list nat)) :
  (sum_list_with length (alter (fun v => v ++ [i]) k idx)
   <= S (sum_list_with length idx))%nat.
Proof.
  revert k. induction idx as [|v idx IH]; intros k; simpl; [lia|].
  destruct k as [|k]; simpl.
  - rewrite length_app. simpl. lia.
  - specialize (IH k). unfold alter in IH. lia.
Qed.

Lemma sum_index_tripod (i : nat) (idx : list (list nat)) (t : nat) :
  (sum_list_with length (index_tripod i idx t) <= S (sum_list_with length idx))%nat.
Proof.
  unfold index_tripod. case_bool_decide; [lia|].
  etransitivity; [apply sum_alter_snoc|].
  case_bool_decide; [|lia].
  rewrite resize_ge by lia. rewrite sum_list_with_app.
  assert (forall n, sum_list_with length (replicate n (@nil nat)) = 0%nat) as ->
    by (induction n; simpl; auto).
  lia.
Qed.

Lemma sum_index_tripods (i : nat) (ts : list nat) (idx : list (list nat)) :
  (sum_list_with length (fold_left (index_tripod i) ts idx)
   <= sum_list_with length idx + length ts)%nat.
Proof.
  revert idx. induction ts as [|t ts IH]; intros idx; simpl; [lia|].
  etransitivity; [apply IH|]. pose proof (sum_index_tripod i idx t). lia.
Qed.

Lemma sum_index_items (l : list (nat * Item.t)) (idx : list (list nat)) :
  Forall (fun p => length (Item.tripods p.2) = kTripods) l ->
  (sum_list_with length (fold_left index_item l idx)
   <= sum_list_with length idx + kTripods * length l)%nat.
Proof.
  revert idx. induction l as [|p l IH]; intros idx Hl; simpl; [lia|].
  inversion Hl as [|? ? Hp Hl']; subst.
  etransitivity; [apply IH; exact Hl'|].
  unfold index_item at 1. pose proof (sum_index_tripods p.1 (Item.tripods p.2) idx).
  rewrite Hp in H. unfold kTripods in *. lia.
Qed.

Lemma build_index_sizes_fit (items : list Item.t) :
  wf_items items -> sizes_fit (build_index items).
Proof.
  intros [Hwf Hsize]. apply Forall_forall. intros v Hv.
  pose proof (sum_list_with_in v length _ Hv) as Hle.
  pose proof (sum_index_items (imap pair items) []) as Hsum.
  rewrite length_imap in Hsum. simpl in Hsum.
  fold (build_index items) in Hsum.
  assert (Forall (fun p : nat * Item.t => length (Item.tripods p.2) = kTripods)
                 (imap pair items)) as Hk.
  { apply (Forall_imap_pair (fun it => length (Item.tripods it) = kTripods)).
    eapply Forall_impl; [exact Hwf|]. intros it (_ & _ & H & _). exact H. }
  specialize (Hsum Hk). unfold kTripods in Hsum. lia.
Qed.
(** ** Termination *)

Lemma initial_length (items : list Item.t) (book : Book) :
  length (assignments (initial items book)) = length (build_index items).
Proof. simpl. apply length_replicate. Qed.

(** C8. For every catalog within its types, [Optimize] terminates: there is
    a number [n] of iterations after which the frame vector is empty and the
    loop exits with the state reached then; before that the vector is never
    empty (less fuel does not reach the exit), and when [n] is not 0 the
    last iteration starts with the frame of tripod 1 alone and pops it. *)
Theorem Optimize_terminates (undef : Shifts) (items : list Item.t)
  (prio_tripods : Z) (book : Book) :
  wf_items items ->
  exists n : nat,
    Optimize undef n items prio_tripods book
      = Some (Optimize_after undef n items prio_tripods book) /\
    assignments (Optimize_after undef n items prio_tripods book) = [] /\
    (forall m, (m < n)%nat ->
       assignments (Optimize_after undef m items prio_tripods book) ≠ [] /\
       Optimize undef m items prio_tripods book = None) /\
    (n ≠ 0%nat ->
       length (assignments (Optimize_after undef (n - 1) items prio_tripods book))
       = 1%nat).
Proof.
  intros Hwf. unfold Optimize, Optimize_after, loop.
  set (pm := make_prio_mask undef prio_tripods).
  set (idx := build_index items).
  set (st0 := initial items book).
  assert (HT : (length idx <= 255)%nat) by (apply build_index_length, Hwf).
  assert (Hfit : sizes_fit idx) by (apply build_index_sizes_fit, Hwf).
  assert (Hlen0 : (length (assignments st0) <= length idx)%nat)
    by (unfold st0, idx; rewrite initial_length; lia).
  pose proof (after_exits undef prio_tripods pm idx (search_weight idx st0) st0
                Hfit HT ltac:(lia) Hlen0) as Hexit.
  destruct (first_time
              (fun n => assignments (after undef prio_tripods pm idx n st0) = [])
              _ _ Hexit) as (n & _ & Hn & Hmin).
  exists n. split; [|split; [exact Hn|split]].
  - apply loop_with_Some. split; [exact Hn|reflexivity].
  - intros m Hm. split; [apply Hmin, Hm|].
    destruct (loop_with _ m st0) as [final|] eqn:E; [|reflexivity].
    apply loop_with_Some in E as [E _]. destruct (Hmin m Hm E).
  - intros Hn0.
    assert (Hne : assignments (after undef prio_tripods pm idx (n - 1) st0) ≠ [])
      by (apply Hmin; lia).
    replace n with (S (n - 1)) in Hn by lia.
    unfold after in Hn. rewrite after_with_S in Hn by exact Hne.
    eapply loop_body_length; [exact Hne| |exact HT|exact Hn].
    apply after_length; assumption.
Qed.

Lemma scenario_items_wf : wf_items scenario_items.
Proof.
  split; [|vm_compute; reflexivity].
  repeat constructor; simpl; unfold kRows, kTripods; lia.
Qed.

Lemma Optimize_terminates_witness :
  wf_items scenario_items /\
  exists n : nat,
    Optimize x86 n scenario_items 1 scenario_book
      = Some (Optimize_after x86 n scenario_items 1 scenario_book) /\
    assignments (Optimize_after x86 n scenario_items 1 scenario_book) = [] /\
    (forall m, (m < n)%nat ->
       assignments (Optimize_after x86 m scenario_items 1 scenario_book) ≠ [] /\
       Optimize x86 m scenario_items 1 scenario_book = None) /\
    (n ≠ 0%nat ->
       length (assignments (Optimize_after x86 (n - 1) scenario_items 1 scenario_book))
       = 1%nat).
Proof.
  split; [exact scenario_items_wf|].
  apply (Optimize_terminates x86 scenario_items 1 scenario_book).
  exact scenario_items_wf.
Defined.
(** ** Counting the used items of a row *)

Lemma selected_in_cons (c : nat) (it : Item.t) (its : list Item.t) :
  selected_in c (it :: its) = sel_bit c it + selected_in c its.
Proof.
  unfold selected_in, sel_bit. rewrite filter_cons.
  destruct (decide _); simpl length; lia.
Qed.

Lemma sel_bit_unused (c : nat) (it : Item.t) :
  Item.used it = false -> sel_bit c it = 0.
Proof.
  intros H. unfold sel_bit. destruct (decide _) as [[? _]|_]; [congruence|reflexivity].
Qed.

Lemma sel_bit_used (c : nat) (it : Item.t) :
  Item.used it = true -> sel_bit c it = if decide (Item.row it = c) then 1 else 0.
Proof.
  intros H. unfold sel_bit.
  destruct (decide (_ /\ _)) as [[_ ?]|Hn], (decide (Item.row it = c)); tauto || lia.
Qed.

Lemma selected_in_nonneg (c : nat) (its : list Item.t) : 0 <= selected_in c its.
Proof. unfold selected_in. lia. Qed.

Lemma selected_in_alter (c p : nat) (f : Item.t -> Item.t) (its : list Item.t)
  (it : Item.t) :
  its !! p = Some it ->
  selected_in c (alter f p its) = selected_in c its - sel_bit c it + sel_bit c (f it).
Proof.
  revert p. induction its as [|x its IH]; intros p Hp; [discriminate|].
  destruct p as [|p]; simpl in Hp.
  - injection Hp as ->. change (alter f 0%nat (it :: its)) with (f it :: its).
    rewrite !selected_in_cons. lia.
  - change (alter f (S p) (x :: its)) with (x :: alter f p its).
    rewrite !selected_in_cons, (IH p Hp). lia.
Qed.

Lemma selected_in_unused (c : nat) (its : list Item.t) :
  all_unused its -> selected_in c its = 0.
Proof.
  induction 1 as [|it its Hit _ IH]; [reflexivity|].
  rewrite selected_in_cons, IH, sel_bit_unused by exact Hit. reflexivity.
Qed.

(** ** Clearing the flags *)

Lemma fmap_alter_absorb {A B : Type} (g : A -> B) (f : A -> A) (i : nat) (l : list A) :
  (forall x, g (f x) = g x) -> g <$> alter f i l = g <$> l.
Proof.
  intros Hgf. revert i. induction l as [|x l IH]; intros i; [reflexivity|].
  destruct i as [|i].
  - change (alter f 0%nat (x :: l)) with (f x :: l). simpl. rewrite Hgf. reflexivity.
  - change (alter f (S i) (x :: l)) with (x :: alter f i l).
    rewrite !fmap_cons, IH. reflexivity.
Qed.

Lemma set_used_unused (it : Item.t) : Item.used it = false -> Item.set_used false it = it.
Proof. destruct it; simpl; intros ->; reflexivity. Qed.

Lemma clear_unused (its : list Item.t) :
  all_unused its -> Item.set_used false <$> its = its.
Proof.
  induction 1 as [|it its Hit _ IH]; [reflexivity|].
  rewrite fmap_cons, IH, set_used_unused by exact Hit. reflexivity.
Qed.

(** ** The items held by the frames *)

Section Held.

Variable tripods : list (list nat).

Lemma held_from_app (k : nat) (F1 F2 : list Assignment) :
  held_from tripods k (F1 ++ F2) =
  held_from tripods k F1 ++ held_from tripods (k + length F1) F2.
Proof.
  revert k. induction F1 as [|a F1 IH]; intros k; simpl.
  - f_equal. lia.
  - rewrite IH, <- app_assoc. do 3 f_equal. lia.
Qed.

Lemma held_from_fresh (k n : nat) (sc : Score.t) :
  held_from tripods k (replicate n (mkAssignment NO_ITEM sc)) = [].
Proof. revert k. induction n as [|n IH]; intros k; simpl; [reflexivity|apply IH]. Qed.

Lemma held_from_snoc (lower : list Assignment) (a : Assignment) :
  held_from tripods 0 (lower ++ [a]) =
  held_from tripods 0 lower ++ option_list (frame_item tripods (length lower) a).
Proof. rewrite held_from_app. simpl. rewrite app_nil_r. reflexivity. Qed.

End Held.
(** ** The invariant is kept by every iteration *)

Section Invariant.

Variable undef : Shifts.
Variable prio_tripods prio_mask : Z.
Variable items0 : list Item.t.
Variable book0 : Book.

Hypothesis items0_wf : wf_items items0.
Hypothesis items0_unused : all_unused items0.
Hypothesis book0_wf : wf_book book0.

Local Abbreviation idx := (build_index items0).
Local Abbreviation body := (loop_body undef prio_tripods prio_mask idx).
Local Abbreviation consistent0 := (consistent items0 book0).
Local Abbreviation Inv0 := (Inv items0 book0).

Lemma cleared_lookup (its : list Item.t) (p : nat) (it : Item.t) :
  Item.set_used false <$> its = items0 -> its !! p = Some it ->
  (Item.row it < kRows)%nat.
Proof.
  intros Hclear Hp.
  assert (items0 !! p = Some (Item.set_used false it)) as H0
    by (rewrite <- Hclear, list_lookup_fmap, Hp; reflexivity).
  destruct items0_wf as [Hwf _].
  apply list_elem_of_lookup_2 in H0.
  apply (proj1 (Forall_forall _ _) Hwf) in H0 as [H _]. exact H.
Qed.

Lemma book0_bound (c : nat) : (c < kRows)%nat -> 0 <= book0 !!! c < 2 ^ 8.
Proof.
  intros Hc. destruct book0_wf as [Hlen Hall].
  destruct (lookup_lt_is_Some_2 book0 c ltac:(lia)) as [n Hn].
  rewrite (list_lookup_total_correct _ _ _ Hn).
  eapply (proj1 (Forall_forall _ _) Hall), list_elem_of_lookup_2, Hn.
Qed.

Lemma initial_consistent :
  consistent0 items0 book0 (replicate (length idx) Assignment_default).
Proof.
  unfold consistent. split; [apply clear_unused, items0_unused|].
  change Assignment_default with (mkAssignment NO_ITEM Score.zero).
  rewrite held_from_fresh. split; [constructor|]. split; [|split].
  - intros i. split; [intros H; inversion H|].
    intros (it & Hit & Hu). apply list_elem_of_lookup_2 in Hit.
    apply (proj1 (Forall_forall _ _) items0_unused) in Hit. congruence.
  - apply book0_wf.
  - split.
    + intros c Hc. rewrite selected_in_unused by exact items0_unused.
      pose proof (book0_bound c Hc). lia.
    + intros k a Ha Hitem. apply lookup_replicate in Ha as [-> _]. done.
Qed.

(** Lines 91-92 undo the choice of the last frame. *)
Lemma release_consistent (its : list Item.t) (bk : Book) (lower : list Assignment)
  (a : Assignment) (p : nat) :
  consistent0 its bk (lower ++ [a]) ->
  frame_item idx (length lower) a = Some p ->
  consistent0 (alter (Item.set_used false) p its)
              (alter (fun n => u8 (n + 1)) (Item.row (its !!! p)) bk) lower.
Proof.
  intros (Hclear & Hnd & Hused & Hlen & Hbk & Hcur) Hp.
  rewrite held_from_snoc, Hp in Hnd, Hused. simpl option_list in *.
  apply NoDup_app in Hnd as (Hnd & Hfresh & _).
  assert (Hnotin : p ∉ held_from idx 0 lower).
  { intros Hin. apply (Hfresh p Hin). left. }
  destruct (proj1 (Hused p)) as (it & Hit & Hu).
  { apply elem_of_app. right. left. }
  rewrite (list_lookup_total_correct _ _ _ Hit).
  pose proof (cleared_lookup its p it Hclear Hit) as Hrow.
  split; [|split; [exact Hnd|split; [|split; [|split]]]].
  - rewrite fmap_alter_absorb; [exact Hclear|]. intros []; reflexivity.
  - intros i. destruct (decide (i = p)) as [->|Hi].
    + rewrite list_lookup_alter_eq, Hit. simpl. split; [done|].
      intros (it' & [= <-] & Hu'). discriminate.
    + rewrite list_lookup_alter_ne by congruence. rewrite <- Hused.
      rewrite elem_of_app, list_elem_of_singleton. tauto.
  - rewrite length_alter. exact Hlen.
  - intros c Hc. destruct (Hbk c Hc) as [Hpos Heq].
    rewrite (selected_in_alter c p _ its it Hit).
    pose proof (selected_in_nonneg c (alter (Item.set_used false) p its)) as Hnn.
    rewrite (selected_in_alter c p _ its it Hit) in Hnn.
    pose proof (book0_bound c Hc).
    rewrite (sel_bit_unused c (Item.set_used false it)) in * by reflexivity.
    rewrite (sel_bit_used c it Hu) in *.
    destruct (decide (Item.row it = c)) as [<-|Hne].
    * rewrite list_lookup_total_alter_eq by lia.
      rewrite u8_small by lia. lia.
    * rewrite list_lookup_total_alter_ne by exact Hne. lia.
  - intros k a' Ha'. apply Hcur. apply lookup_app_l_Some. exact Ha'.
Qed.

Lemma unvisited_consistent (its : list Item.t) (bk : Book) (lower : list Assignment)
  (a : Assignment) :
  consistent0 its bk (lower ++ [a]) ->
  frame_item idx (length lower) a = None ->
  consistent0 its bk lower.
Proof.
  intros (Hclear & Hnd & Hused & Hlen & Hbk & Hcur) Hp.
  rewrite held_from_snoc, Hp in Hnd, Hused. simpl in *. rewrite app_nil_r in *.
  repeat (split; [assumption|]).
  intros k a' Ha'. apply Hcur. apply lookup_app_l_Some. exact Ha'.
Qed.

(** Lines 107-116 add a free candidate to the held items. *)
Lemma take_consistent (its : list Item.t) (bk : Book) (lower : list Assignment)
  (j : Z) (p : nat) (sc : Score.t) :
  consistent0 its bk lower ->
  (length lower < length idx)%nat ->
  0 <= j -> (idx !!! length lower) !! Z.to_nat j = Some p ->
  busy its bk p = false ->
  consistent0 (alter (Item.set_used true) p its)
              (alter (fun n => u8 (n - 1)) (Item.row (its !!! p)) bk)
              (resize (length idx) (mkAssignment NO_ITEM sc)
                      (lower ++ [mkAssignment j sc])).
Proof.
  intros (Hclear & Hnd & Hused & Hlen & Hbk & Hcur) Hk Hj Hp Hfree.
  assert (Hvalid : (p < length its)%nat).
  { rewrite <- (length_fmap (Item.set_used false)), Hclear.
    eapply build_index_valid, list_elem_of_lookup_2, Hp. }
  destruct (lookup_lt_is_Some_2 its p Hvalid) as [it Hit].
  unfold busy in Hfree. rewrite (list_lookup_total_correct _ _ _ Hit) in *.
  apply orb_false_iff in Hfree as [Hu Hcap].
  apply bool_decide_eq_false in Hcap.
  pose proof (cleared_lookup its p it Hclear Hit) as Hrow.
  assert (Hheld : held_from idx 0
            (resize (length idx) (mkAssignment NO_ITEM sc) (lower ++ [mkAssignment j sc]))
          = held_from idx 0 lower ++ [p]).
  { rewrite resize_ge by (rewrite length_app; simpl; lia).
    rewrite held_from_app, held_from_fresh, app_nil_r, held_from_snoc.
    f_equal. unfold frame_item. simpl.
    assert (j ≠ NO_ITEM) as Hne.
    { apply lookup_lt_Some in Hp.
      pose proof (build_index_sizes_fit items0 items0_wf) as Hfit.
      destruct (idx !! length lower) as [v|] eqn:Hv;
        [|apply lookup_ge_None in Hv; lia].
      rewrite (list_lookup_total_correct _ _ _ Hv) in Hp.
      apply list_elem_of_lookup_2 in Hv.
      apply (proj1 (Forall_forall _ _) Hfit) in Hv.
      rewrite NO_ITEM_value. intros ->. lia. }
    rewrite bool_decide_eq_false_2 by exact Hne. simpl.
    rewrite (list_lookup_total_correct _ _ _ Hp). reflexivity. }
  assert (Hnotin : p ∉ held_from idx 0 lower).
  { intros Hin. apply Hused in Hin as (it' & Hit' & Hu'). congruence. }
  unfold consistent. cbv zeta. rewrite Hheld.
  split; [|split; [|split; [|split; [|split]]]].
  - rewrite fmap_alter_absorb; [exact Hclear|]. intros []; reflexivity.
  - apply NoDup_app. split; [exact Hnd|]. split; [|apply NoDup_singleton].
    intros x Hx Hxp. apply list_elem_of_singleton in Hxp as ->. exact (Hnotin Hx).
  - intros i. rewrite elem_of_app, list_elem_of_singleton.
    destruct (decide (i = p)) as [->|Hi].
    + rewrite list_lookup_alter_eq, Hit. simpl. split; [eauto|auto].
    + rewrite list_lookup_alter_ne by congruence. rewrite <- Hused. tauto.
  - rewrite length_alter. exact Hlen.
  - intros c Hc. destruct (Hbk c Hc) as [Hpos Heq].
    rewrite (selected_in_alter c p _ its it Hit).
    pose proof (selected_in_nonneg c its) as Hnn.
    pose proof (book0_bound c Hc).
    rewrite (sel_bit_unused c it Hu).
    rewrite (sel_bit_used c (Item.set_used true it)) by reflexivity.
    change (Item.row (Item.set_used true it)) with (Item.row it).
    destruct (decide (Item.row it = c)) as [<-|Hne].
    * rewrite list_lookup_total_alter_eq by lia.
      rewrite u8_small by lia. lia.
    * rewrite list_lookup_total_alter_ne by exact Hne. lia.
  - intros k a Ha Hitem.
    rewrite resize_ge in Ha by (rewrite length_app; simpl; lia).
    apply lookup_app_Some in Ha as [Ha|[_ Ha]];
      [|apply lookup_replicate in Ha as [-> _]; done].
    apply lookup_app_Some in Ha as [Ha|[Hge Ha]]; [apply Hcur; assumption|].
    destruct (k - length lower)%nat as [|d] eqn:Hd; [|destruct d; discriminate].
    injection Ha as <-. simpl. replace k with (length lower) by lia.
    split; [exact Hj|]. eapply lookup_lt_Some. exact Hp.
Qed.

Lemma try_next_Inv (st : State) (lower : list Assignment) (a : Assignment)
  (prev : Assignment) :
  assignments st = lower ++ [a] -> (length lower < length idx)%nat ->
  consistent0 (items st) (book st) lower ->
  Inv0 (try_next undef prio_mask idx (idx !!! length lower) a prev st).
Proof.
  intros Hst Hk Hcons.
  destruct (try_next_cases undef prio_mask idx (idx !!! length lower) a prev st)
    as [-> | (j & p & Hj & Hp & Hfree & ->)].
  - split; simpl; rewrite Hst, removelast_last; [exact Hcons|lia].
  - unfold Inv.
    rewrite take_item_items, take_item_book, take_item_assignments, Hst, removelast_last.
    rewrite (list_lookup_total_correct _ _ _ Hp).
    split; [|rewrite length_resize; lia].
    apply take_consistent; try assumption.
    pose proof (u64_range (item a + 1)). lia.
Qed.

Lemma loop_body_Inv (st : State) :
  Inv0 st -> assignments st ≠ [] -> Inv0 (body st).
Proof.
  intros [Hcons Hlen] Hne.
  pose proof (build_index_length items0 (proj1 items0_wf)) as HT.
  destruct (assignments st) as [|a lower] eqn:E using rev_ind; [done|]. clear IHlower.
  rewrite length_app in Hlen. simpl in Hlen.
  rewrite (loop_body_unfold _ _ _ _ st lower a E ltac:(lia)).
  assert (Hpop : forall st', assignments st' = lower ++ [a] ->
            consistent0 (items st') (book st') lower -> Inv0 (pop st')).
  { intros st' Hst' Hc. split; simpl; rewrite Hst', removelast_last; [exact Hc|lia]. }
  case_bool_decide as Hitem.
  - apply try_next_Inv; [exact E|lia|]. simpl.
    apply (release_consistent _ _ _ a); [exact Hcons|].
    unfold frame_item. rewrite bool_decide_eq_false_2 by exact Hitem. reflexivity.
  - assert (consistent0 (items st) (book st) lower) as Hlower.
    { apply (unvisited_consistent _ _ _ a); [exact Hcons|].
      unfold frame_item. rewrite bool_decide_eq_true_2; [reflexivity|].
      destruct (decide (item a = NO_ITEM)); [assumption|contradiction]. }
    repeat case_bool_decide; simpl;
      first [ apply Hpop; assumption | apply try_next_Inv; [exact E|lia|exact Hlower] ].
Qed.

Lemma after_Inv (n : nat) (st : State) :
  Inv0 st -> Inv0 (after undef prio_tripods prio_mask idx n st).
Proof.
  revert n st. apply (after_with_invariant _ Inv0).
  intros st Hne HI. apply loop_body_Inv; assumption.
Qed.

(** In a state that satisfies the invariant every access of an iteration is
    within bounds, so that no total lookup of the model falls back on its
    default: the frame count is a tripod of the index, every candidate of
    that tripod is an item of the catalog whose row is a row of the book,
    and a cursor that has left [size_t(-1)] points at a candidate. *)
Lemma accesses_in_bounds (st : State) :
  Inv0 st -> assignments st ≠ [] ->
  let n := length (assignments st) in
  (1 <= n <= length idx)%nat /\ (length idx <= 255)%nat /\
  (forall p, p ∈ idx !!! (n - 1)%nat ->
     exists it, items st !! p = Some it /\ (Item.row it < length (book st))%nat) /\
  (forall a, last (assignments st) = Some a -> item a ≠ NO_ITEM ->
     0 <= item a < 2 ^ 64 /\
     (Z.to_nat (item a) < length (idx !!! (n - 1)%nat))%nat).
Proof.
  intros [(Hclear & _ & _ & Hlen & _ & Hcur) Hn] Hne n.
  pose proof (build_index_length items0 (proj1 items0_wf)) as HT.
  assert (1 <= n)%nat by (unfold n; destruct (assignments st); [done|simpl; lia]).
  split; [lia|]. split; [exact HT|]. split.
  - intros p Hp. apply build_index_valid in Hp.
    rewrite <- Hclear, length_fmap in Hp.
    destruct (lookup_lt_is_Some_2 _ _ Hp) as [it Hit]. exists it.
    split; [exact Hit|]. rewrite Hlen. eapply cleared_lookup; eassumption.
  - intros a Ha Hitem. rewrite last_lookup in Ha.
    replace (pred (length (assignments st))) with (n - 1)%nat in Ha by (unfold n; lia).
    destruct (Hcur _ _ Ha Hitem) as [Hpos Hlt]. split; [|exact Hlt].
    pose proof (build_index_sizes_fit items0 items0_wf) as Hfit.
    destruct (idx !! (n - 1)%nat) as [v|] eqn:Hv;
      [|apply lookup_ge_None in Hv; lia].
    rewrite (list_lookup_total_correct _ _ _ Hv) in Hlt.
    apply list_elem_of_lookup_2 in Hv.
    apply (proj1 (Forall_forall _ _) Hfit) in Hv. lia.
Qed.

End Invariant.

Lemma Optimize_after_Inv (undef : Shifts) (items : list Item.t) (prio_tripods : Z)
  (book : Book) (n : nat) :
  wf_items items -> all_unused items -> wf_book book ->
  Inv items book (Optimize_after undef n items prio_tripods book).
Proof.
  intros Hwf Hun Hbk. unfold Optimize_after. apply after_Inv; try assumption.
  split; simpl; [apply initial_consistent; assumption|rewrite length_replicate; lia].
Qed.
(** ** Capacities and flags *)

(** C7. After every iteration of the loop, for every row [c], the free slots
    [book[c]] are not negative and equal the initial capacity minus the
    number of used items of row [c]; so that number never exceeds the
    initial capacity. *)
Theorem capacity_invariant (undef : Shifts) (items0 : list Item.t)
  (prio_tripods : Z) (book0 : Book) (n c : nat) :
  wf_items items0 -> all_unused items0 -> wf_book book0 -> (c < kRows)%nat ->
  let st := Optimize_after undef n items0 prio_tripods book0 in
  0 <= book st !!! c /\
  book st !!! c = book0 !!! c - selected_in c (items st) /\
  selected_in c (items st) <= book0 !!! c.
Proof.
  intros Hwf Hun Hbk Hc st.
  destruct (Optimize_after_Inv undef items0 prio_tripods book0 n Hwf Hun Hbk)
    as [(_ & _ & _ & _ & Hrow & _) _].
  destruct (Hrow c Hc) as [Hpos Heq]. fold st in Hpos, Heq. lia.
Qed.

Lemma scenario_items_unused : all_unused scenario_items.
Proof. repeat constructor. Qed.

Lemma scenario_book_wf : wf_book scenario_book.
Proof. split; [reflexivity|]. repeat constructor; lia. Qed.

(** After the third iteration of the scenario, items A and B are used: row 0
    and row 1 have no free slot left. *)
Lemma capacity_invariant_witness :
  wf_items scenario_items /\ all_unused scenario_items /\ wf_book scenario_book /\
  (0 < kRows)%nat /\
  let st := Optimize_after x86 3 scenario_items 1 scenario_book in
  0 <= book st !!! 0%nat /\
  book st !!! 0%nat = scenario_book !!! 0%nat - selected_in 0 (items st) /\
  selected_in 0 (items st) <= scenario_book !!! 0%nat.
Proof.
  split; [exact scenario_items_wf|].
  split; [exact scenario_items_unused|].
  split; [exact scenario_book_wf|].
  split; [unfold kRows; lia|].
  apply (capacity_invariant x86 scenario_items 1 scenario_book 3 0).
  - exact scenario_items_wf.
  - exact scenario_items_unused.
  - exact scenario_book_wf.
  - unfold kRows. lia.
Defined.

(** C10. When [Optimize] returns, the frame vector is empty, every [used]
    flag is clear and the catalog is the one it was called with. *)
Theorem Optimize_restores_catalog (undef : Shifts) (items0 : list Item.t)
  (prio_tripods : Z) (book0 : Book) (fuel : nat) (final : State) :
  wf_items items0 -> all_unused items0 -> wf_book book0 ->
  Optimize undef fuel items0 prio_tripods book0 = Some final ->
  assignments final = [] /\ all_unused (items final) /\ items final = items0.
Proof.
  intros Hwf Hun Hbk Hrun.
  apply loop_with_Some in Hrun as [Hexit ->].
  pose proof (Optimize_after_Inv undef items0 prio_tripods book0 fuel Hwf Hun Hbk)
    as [(Hclear & _ & Hused & _) _].
  unfold Optimize_after, after in *.
  set (final := after_with _ fuel _) in *.
  rewrite Hexit in Hused. simpl in Hused.
  assert (Hflags : all_unused (items final)).
  { apply Forall_forall. intros it Hit.
    apply list_elem_of_lookup_1 in Hit as [i Hi].
    destruct (Item.used it) eqn:Hu; [|reflexivity].
    assert (i ∈ @nil nat) as Hin by (apply Hused; eauto). inversion Hin. }
  split; [exact Hexit|]. split; [exact Hflags|].
  rewrite <- Hclear. symmetry. apply clear_unused. exact Hflags.
Qed.

Lemma Optimize_restores_catalog_witness :
  wf_items scenario_items /\ all_unused scenario_items /\ wf_book scenario_book /\
  Optimize x86 7 scenario_items 1 scenario_book = Some scenario_final /\
  assignments scenario_final = [] /\ all_unused (items scenario_final) /\
  items scenario_final = scenario_items.
Proof.
  split; [exact scenario_items_wf|].
  split; [exact scenario_items_unused|].
  split; [exact scenario_book_wf|].
  split; [vm_compute; reflexivity|].
  apply (Optimize_restores_catalog x86 scenario_items 1 scenario_book 7 scenario_final).
  - exact scenario_items_wf.
  - exact scenario_items_unused.
  - exact scenario_book_wf.
  - vm_compute. reflexivity.
Defined.
(** ** The index build validates nothing *)

(** C9 (counterexample). An item of row 9, outside [0, kRows), is indexed
    like any other: the build returns the candidate lists, with the item in
    the list of its tripod, and the search starts on them. *)
Lemma malformed_entry_is_indexed :
  (kRows <=? Item.row malformed_item)%nat = true /\
  build_index [malformed_item] = [[0%nat]] /\
  assignments (initial [malformed_item] scenario_book) = [Assignment_default].
Proof. vm_compute. auto. Qed.

(** C9 (amended). The build is a total grouping with no validation: for
    every catalog, well-formed or not, item [p] is a candidate of tripod
    [k + 1] exactly when [k + 1] is among the item's tripods, whatever its
    row; and a tripod with a candidate is within the index, whose size is
    the largest tripod of the catalog. *)
Theorem build_index_groups_every_entry (items : list Item.t) (k p : nat) :
  (p ∈ build_index items !!! k <->
   exists it, items !! p = Some it /\ S k ∈ Item.tripods it) /\
  (p ∈ build_index items !!! k -> (S k <= length (build_index items))%nat).
Proof.
  split; [apply build_index_spec|].
  intros H. destruct (decide (k < length (build_index items))%nat) as [Hk|Hk]; [lia|].
  rewrite list_lookup_total_alt, lookup_ge_None_2 in H by lia. inversion H.
Qed.
(** ** BetterThan is a strict order on keys *)

Lemma tuple_lt_irrefl (a : Z * Z * Z) : Score.tuple_lt a a = false.
Proof.
  destruct a as [[a0 a1] a2]. unfold Score.tuple_lt.
  repeat case_bool_decide; try reflexivity; lia.
Qed.

Lemma tuple_lt_asym (a b : Z * Z * Z) :
  Score.tuple_lt a b = true -> Score.tuple_lt b a = false.
Proof.
  destruct a as [[a0 a1] a2], b as [[b0 b1] b2]. unfold Score.tuple_lt.
  repeat case_bool_decide; try reflexivity; try discriminate; lia.
Qed.

(** The order "not above" is transitive. *)
Lemma tuple_le_trans (a b c : Z * Z * Z) :
  Score.tuple_lt b a = false -> Score.tuple_lt c b = false ->
  Score.tuple_lt c a = false.
Proof.
  destruct a as [[a0 a1] a2], b as [[b0 b1] b2], c as [[c0 c1] c2].
  unfold Score.tuple_lt.
  repeat case_bool_decide; try reflexivity; try discriminate; lia.
Qed.

Lemma BetterThan_irrefl (a : Score.t) (pm : Z) : Score.BetterThan a a pm = false.
Proof. apply tuple_lt_irrefl. Qed.

Lemma BetterThan_asym (a b : Score.t) (pm : Z) :
  Score.BetterThan a b pm = true -> Score.BetterThan b a pm = false.
Proof. apply tuple_lt_asym. Qed.

Lemma not_better_trans (a b c : Score.t) (pm : Z) :
  Score.BetterThan a b pm = false -> Score.BetterThan b c pm = false ->
  Score.BetterThan a c pm = false.
Proof. unfold Score.BetterThan. intros Hab Hbc. eapply tuple_le_trans; eassumption. Qed.

(** ** The best score along the run *)

Section Best.

Variable undef : Shifts.
Variable prio_tripods prio_mask : Z.
Variable tripods : list (list nat).

Local Abbreviation body := (loop_body undef prio_tripods prio_mask tripods).
Local Abbreviation run := (after undef prio_tripods prio_mask tripods).

(** What [take_item] does to the best score and the output: nothing, or,
    at the frame of the last tripod, a report of the frame's score, better
    than the best before, with the items then used. *)
Lemma take_item_report (v : list nat) (prev : Assignment) (j : Z) (st : State) :
  assignments st ≠ [] ->
  let st' := take_item undef prio_mask tripods v prev j st in
  (best_score st' = best_score st /\ output st' = output st) \/
  (Score.BetterThan (best_score st') (best_score st) prio_mask = true /\
   length (assignments st) = length tripods /\
   last (assignments st') = Some (mkAssignment j (best_score st')) /\
   output st' = output st ++ [mkReport (best_score st') (used_items (items st'))]).
Proof.
  intros Hne. unfold take_item. case_bool_decide as Hlen; [left; auto|].
  destruct (Score.BetterThan _ _ _) eqn:Hb; [right|left; auto].
  simpl. split; [exact Hb|]. split; [|split; [apply last_snoc|reflexivity]].
  rewrite length_app in Hlen. simpl in Hlen.
  destruct (assignments st) as [|a F] using rev_ind; [done|].
  rewrite removelast_last in Hlen. rewrite length_app. exact Hlen.
Qed.

Lemma used_from_spec (its : list Item.t) (k i : nat) :
  i ∈ used_from k its <->
  (k <= i)%nat /\ exists it, its !! (i - k)%nat = Some it /\ Item.used it = true.
Proof.
  revert k. induction its as [|x its IH]; intros k; simpl.
  - split; [intros H; inversion H|]. intros (_ & it & H & _). discriminate.
  - assert (Hrest : i ∈ used_from (S k) its <->
                    (k < i)%nat /\ exists it, (x :: its) !! (i - k)%nat = Some it
                                             /\ Item.used it = true).
    { rewrite IH. split; intros (Hk & it & Hit & Hu); (split; [lia|]); exists it;
        (split; [|exact Hu]).
      - replace (i - k)%nat with (S (i - S k)) by lia. exact Hit.
      - replace (i - k)%nat with (S (i - S k)) in Hit by lia. exact Hit. }
    destruct (Item.used x) eqn:Hx.
    + rewrite elem_of_cons, Hrest. split.
      * intros [->|(Hk & H)]; [|split; [lia|exact H]].
        split; [lia|]. exists x. rewrite Nat.sub_diag. auto.
      * intros (Hk & it & Hit & Hu).
        destruct (decide (i = k)) as [->|]; [left; reflexivity|right].
        split; [lia|eauto].
    + rewrite Hrest. split.
      * intros (Hk & H). split; [lia|exact H].
      * intros (Hk & it & Hit & Hu). split; [|eauto].
        destruct (decide (i = k)) as [->|]; [|lia].
        rewrite Nat.sub_diag in Hit. simpl in Hit. congruence.
Qed.

Lemma used_items_spec (its : list Item.t) (i : nat) :
  i ∈ used_items its <-> exists it, its !! i = Some it /\ Item.used it = true.
Proof.
  unfold used_items. rewrite used_from_spec, Nat.sub_0_r.
  split; [intros [_ H]; exact H|intros H; split; [lia|exact H]].
Qed.

Lemma try_next_report (v : list nat) (a prev : Assignment) (st : State) :
  assignments st ≠ [] ->
  let st' := try_next undef prio_mask tripods v a prev st in
  (best_score st' = best_score st /\ output st' = output st) \/
  (Score.BetterThan (best_score st') (best_score st) prio_mask = true /\
   length (assignments st) = length tripods /\
   exists j p,
     0 <= j /\ v !! Z.to_nat j = Some p /\
     last (assignments st') = Some (mkAssignment j (best_score st')) /\
     output st' = output st ++ [mkReport (best_score st') (used_items (items st'))] /\
     ((p < length (items st))%nat -> p ∈ used_items (items st'))).
Proof.
  intros Hne st'. unfold st'.
  destruct (try_next_cases undef prio_mask tripods v a prev st)
    as [-> | (j & p & Hj & Hp & _ & ->)]; [left; auto|].
  destruct (take_item_report v prev j st Hne) as [Hsame|(Hb & Hlen & Hlast & Hout)];
    [left; exact Hsame|right].
  split; [exact Hb|]. split; [exact Hlen|]. exists j, p.
  pose proof (u64_range (item a + 1)).
  split; [lia|]. split; [exact Hp|]. split; [exact Hlast|]. split; [exact Hout|].
  intros Hvalid. apply used_items_spec.
  rewrite take_item_items, (list_lookup_total_correct _ _ _ Hp).
  destruct (lookup_lt_is_Some_2 _ _ Hvalid) as [it Hit].
  exists (Item.set_used true it). rewrite list_lookup_alter_eq, Hit. auto.
Qed.

(** The same for a whole iteration; [v] is the candidate list the body
    works on. *)
Lemma loop_body_report (st : State) :
  assignments st ≠ [] ->
  let st' := body st in
  let v := tripods !!! Z.to_nat (Z.of_nat (length (assignments st)) mod 2 ^ 8 - 1) in
  (best_score st' = best_score st /\ output st' = output st) \/
  (Score.BetterThan (best_score st') (best_score st) prio_mask = true /\
   length (assignments st) = length tripods /\
   exists j p,
     0 <= j /\ v !! Z.to_nat j = Some p /\
     last (assignments st') = Some (mkAssignment j (best_score st')) /\
     output st' = output st ++ [mkReport (best_score st') (used_items (items st'))] /\
     ((p < length (items st))%nat -> p ∈ used_items (items st'))).
Proof.
  intros Hne st' v. unfold st', loop_body. fold v.
  set (a := default Assignment_default (last (assignments st))).
  set (prev := if bool_decide (1 < _) then _ else _).
  destruct (bool_decide (item a ≠ NO_ITEM)).
  - set (st1 := release _ st).
    destruct (try_next_report v a prev st1 Hne)
      as [Hsame|(Hb & Hlen & j & p & Hj & Hp & Hlast & Hout & Hin)];
      [left; exact Hsame|right].
    split; [exact Hb|]. split; [exact Hlen|]. exists j, p.
    repeat (split; [assumption|]).
    intros Hvalid. apply Hin. unfold st1. simpl. rewrite length_alter. exact Hvalid.
  - destruct (bool_decide (Z.land _ _ ≠ 0)); [left; auto|].
    destruct (_ && _); [left; auto|].
    apply try_next_report. exact Hne.
Qed.

(** The best score never gets worse. *)
Lemma loop_body_best_monotone (st : State) :
  assignments st ≠ [] ->
  Score.BetterThan (best_score st) (best_score (body st)) prio_mask = false.
Proof.
  intros Hne. destruct (loop_body_report st Hne) as [[-> _]|[Hb _]].
  - apply BetterThan_irrefl.
  - apply BetterThan_asym. exact Hb.
Qed.

Lemma after_best_monotone (n : nat) (st : State) :
  Score.BetterThan (best_score st) (best_score (run n st)) prio_mask = false.
Proof.
  revert n st.
  assert (Hgen : forall best n st,
    Score.BetterThan best (best_score st) prio_mask = false ->
    Score.BetterThan best (best_score (run n st)) prio_mask = false).
  { intros best.
    apply (after_with_invariant _
             (fun st => Score.BetterThan best (best_score st) prio_mask = false)).
    intros st Hne Hb.
    eapply not_better_trans; [exact Hb|apply loop_body_best_monotone, Hne]. }
  intros n st. apply Hgen, BetterThan_irrefl.
Qed.

(** The state after [n + m] iterations is the state [m] iterations after
    the [n]-th. *)
Lemma after_add (n m : nat) (st : State) : run (n + m) st = run m (run n st).
Proof.
  unfold after. revert st. induction n as [|n IH]; intros st; [reflexivity|].
  destruct (decide (assignments st = [])) as [E|Hne].
  - rewrite !(after_with_exit _ _ st) by exact E. reflexivity.
  - rewrite Nat.add_succ_l, !after_with_step by exact Hne. apply IH.
Qed.

(** A complete assignment, formed when the frame of the last tripod takes
    an item, is compared with the best score. *)
Lemma loop_body_complete (st : State) (a : Assignment) :
  assignments st ≠ [] ->
  length (assignments st) = length tripods ->
  length (assignments (body st)) = length tripods ->
  last (assignments (body st)) = Some a ->
  Score.BetterThan (score a) (best_score (body st)) prio_mask = false.
Proof.
  intros Hne Hlen Hlen' Hlast.
  assert (Hpop : length (assignments (pop st)) ≠ length tripods).
  { simpl. destruct (assignments st) as [|x F] using rev_ind; [done|].
    rewrite removelast_last. rewrite length_app in Hlen. simpl in Hlen. lia. }
  assert (Hnext : forall v a0 prev st1,
    assignments st1 = assignments st ->
    best_score st1 = best_score st ->
    length (assignments (try_next undef prio_mask tripods v a0 prev st1)) = length tripods ->
    last (assignments (try_next undef prio_mask tripods v a0 prev st1)) = Some a ->
    Score.BetterThan (score a)
      (best_score (try_next undef prio_mask tripods v a0 prev st1)) prio_mask = false).
  { intros v a0 prev st1 Hst1 Hbest1.
    destruct (try_next_cases undef prio_mask tripods v a0 prev st1)
      as [-> | (j & p & _ & _ & _ & ->)].
    - intros H. exfalso. apply Hpop. simpl in *. rewrite <- Hst1. exact H.
    - unfold take_item. rewrite Hst1.
      assert (length (removelast (assignments st) ++
                [mkAssignment j (frame_score undef (items st1) prev (v !!! Z.to_nat j))])
              = length tripods) as Hsame.
      { destruct (assignments st) as [|x F] using rev_ind; [done|].
        rewrite removelast_last, length_app. rewrite length_app in Hlen. exact Hlen. }
      rewrite bool_decide_eq_false_2 by (intros H; apply H, Hsame).
      destruct (Score.BetterThan _ _ _) eqn:Hb; simpl;
        rewrite last_snoc; intros _ [= <-]; simpl.
      + apply BetterThan_irrefl.
      + exact Hb. }
  revert Hlen' Hlast. unfold loop_body.
  destruct (bool_decide (item _ ≠ NO_ITEM)).
  - apply Hnext; reflexivity.
  - destruct (bool_decide (Z.land _ _ ≠ 0)); [intros H; destruct (Hpop H)|].
    destruct (_ && _); [intros H; destruct (Hpop H)|].
    apply Hnext; reflexivity.
Qed.

End Best.
(** ** Reports and the best score *)

Section Reports.

Variable undef : Shifts.
Variable prio_tripods prio_mask : Z.
Variable tripods : list (list nat).

Local Abbreviation body := (loop_body undef prio_tripods prio_mask tripods).
Local Abbreviation run := (after undef prio_tripods prio_mask tripods).

Lemma loop_body_reports_ok (st : State) :
  assignments st ≠ [] -> reports_ok prio_mask st -> reports_ok prio_mask (body st).
Proof.
  intros Hne [Hlast Hall].
  destruct (loop_body_report undef prio_tripods prio_mask tripods st Hne)
    as [[Hb Ho]|(Hb & _ & j & p & _ & _ & _ & Ho & _)]; unfold reports_ok.
  - rewrite Hb, Ho. auto.
  - rewrite Ho, last_snoc. split; [reflexivity|].
    intros r Hr. apply elem_of_app in Hr as [Hr|Hr].
    + eapply not_better_trans; [apply Hall, Hr|]. apply BetterThan_asym, Hb.
    + apply list_elem_of_singleton in Hr as ->. apply BetterThan_irrefl.
Qed.

Lemma after_reports_ok (n : nat) (st : State) :
  reports_ok prio_mask st -> reports_ok prio_mask (run n st).
Proof.
  revert n st. apply (after_with_invariant _ (reports_ok prio_mask)).
  intros st Hne Hok. apply loop_body_reports_ok; assumption.
Qed.

Lemma loop_body_items_length (st : State) :
  length (items (body st)) = length (items st).
Proof.
  assert (Hnext : forall v a prev st1,
    length (items (try_next undef prio_mask tripods v a prev st1)) = length (items st1)).
  { intros v a prev st1.
    destruct (try_next_cases undef prio_mask tripods v a prev st1)
      as [-> | (j & p & _ & _ & _ & ->)]; [reflexivity|].
    rewrite take_item_items, length_alter. reflexivity. }
  unfold loop_body. destruct (bool_decide (item _ ≠ NO_ITEM)).
  - rewrite Hnext. simpl. apply length_alter.
  - destruct (bool_decide (Z.land _ _ ≠ 0)); [reflexivity|].
    destruct (_ && _); [reflexivity|]. apply Hnext.
Qed.

Lemma after_items_length (n : nat) (st : State) :
  length (items (run n st)) = length (items st).
Proof.
  revert n st.
  assert (Hgen : forall len n st,
    length (items st) = len -> length (items (run n st)) = len).
  { intros len.
    apply (after_with_invariant _ (fun st => length (items st) = len)).
    intros st _ Hlen. rewrite loop_body_items_length. exact Hlen. }
  intros n st. apply Hgen. reflexivity.
Qed.

End Reports.

Lemma initial_reports_ok (prio_mask : Z) (items0 : list Item.t) (book0 : Book) :
  reports_ok prio_mask (initial items0 book0).
Proof. split; [reflexivity|]. intros r Hr. inversion Hr. Qed.

(** With one high-priority tripod that no item has, the frame of tripod 2 is
    popped by the priority cut-off of line 95 and the engine ends on the
    empty score with nothing reported, although taking the only item is
    feasible and scores one tripod more. *)
Lemma priority_prune_misses_optimum :
  option_map best_score (Optimize x86 3 [lone_item] 1 scenario_book)
    = Some Score.zero /\
  option_map output (Optimize x86 3 [lone_item] 1 scenario_book) = Some [] /\
  feasible [lone_item] scenario_book [0%nat] = true /\
  selection_score x86 [lone_item] [0%nat] = Score.mk 2 0 /\
  spec_better (make_prio_mask x86 1) (Score.mk 2 0) Score.zero = true /\
  Score.BetterThan (Score.mk 2 0) Score.zero (make_prio_mask x86 1) = true.
Proof. vm_compute. auto 10. Qed.

(** X22. When the engine has run to exhaustion, its best score is the score
    of the last report (the empty score when there is none), no report is
    [BetterThan] it, and neither is any complete assignment formed during
    the run, that is, the score of the last frame whenever the frame of the
    last tripod has taken an item. *)
Theorem final_best_is_best_examined (undef : Shifts) (items0 : list Item.t)
  (prio_tripods : Z) (book0 : Book) (fuel : nat) (final : State) :
  Optimize undef fuel items0 prio_tripods book0 = Some final ->
  let pm := make_prio_mask undef prio_tripods in
  let idx := build_index items0 in
  best_score final = default Score.zero (report_score <$> last (output final)) /\
  (forall r, r ∈ output final ->
     Score.BetterThan (report_score r) (best_score final) pm = false) /\
  (forall (n : nat) (a : Assignment),
     let st := Optimize_after undef n items0 prio_tripods book0 in
     let st' := loop_body undef prio_tripods pm idx st in
     assignments st ≠ [] ->
     length (assignments st) = length idx ->
     length (assignments st') = length idx ->
     last (assignments st') = Some a ->
     Score.BetterThan (score a) (best_score final) pm = false).
Proof.
  intros Hrun pm idx. apply loop_with_Some in Hrun as [Hexit ->].
  fold pm idx in Hexit |- *.
  fold (after undef prio_tripods pm idx) in Hexit |- *.
  set (st0 := initial items0 book0) in *.
  destruct (after_reports_ok undef prio_tripods pm idx fuel st0
              (initial_reports_ok pm items0 book0)) as [Hlast Hall].
  split; [exact Hlast|]. split; [exact Hall|].
  intros n a st st' Hne Hlen Hlen' Ha. unfold Optimize_after in st.
  fold pm idx st0 in st.
  assert (Hn : (n < fuel)%nat).
  { destruct (decide (n < fuel)%nat) as [|Hge]; [assumption|exfalso].
    apply Hne. unfold st, after.
    rewrite (after_with_stable _ fuel n) by (assumption || lia). exact Hexit. }
  replace fuel with (S n + (fuel - S n))%nat by lia.
  rewrite after_add. unfold after at 2. rewrite after_with_S by exact Hne.
  fold (after undef prio_tripods pm idx n st0). fold st. fold st'.
  eapply not_better_trans; [|apply after_best_monotone].
  apply loop_body_complete; assumption.
Qed.

Lemma final_best_is_best_examined_witness :
  Optimize x86 7 scenario_items 1 scenario_book = Some scenario_final /\
  let pm := make_prio_mask x86 1 in
  let idx := build_index scenario_items in
  best_score scenario_final
    = default Score.zero (report_score <$> last (output scenario_final)) /\
  (forall r, r ∈ output scenario_final ->
     Score.BetterThan (report_score r) (best_score scenario_final) pm = false) /\
  (forall (n : nat) (a : Assignment),
     let st := Optimize_after x86 n scenario_items 1 scenario_book in
     let st' := loop_body x86 1 pm idx st in
     assignments st ≠ [] ->
     length (assignments st) = length idx ->
     length (assignments st') = length idx ->
     last (assignments st') = Some a ->
     Score.BetterThan (score a) (best_score scenario_final) pm = false).
Proof.
  split; [vm_compute; reflexivity|].
  apply (final_best_is_best_examined x86 scenario_items 1 scenario_book 7 scenario_final).
  vm_compute. reflexivity.
Defined.
(** ** Reports come from the frame of the last tripod *)

(** A report is written only by an iteration that starts with all the frames
    and in which the last one takes a candidate of the last tripod; the
    candidate is among the items reported. *)
Lemma loop_body_report_last (undef : Shifts) (prio_tripods prio_mask : Z)
  (items0 : list Item.t) (st : State) :
  let idx := build_index items0 in
  let st' := loop_body undef prio_tripods prio_mask idx st in
  Forall Item.wf items0 -> length (items st) = length items0 ->
  assignments st ≠ [] ->
  output st' = output st \/
  (length (assignments st) = length idx /\
   exists a p,
     last (assignments st') = Some a /\ 0 <= item a /\
     (idx !!! (length idx - 1)%nat) !! Z.to_nat (item a) = Some p /\
     output st' = output st ++ [mkReport (score a) (used_items (items st'))] /\
     p ∈ used_items (items st')).
Proof.
  intros idx st' Hwf Hitems Hne.
  pose proof (build_index_length items0 Hwf) as HT. fold idx in HT.
  destruct (loop_body_report undef prio_tripods prio_mask idx st Hne)
    as [[_ Ho]|(_ & Hlen & j & p & Hj & Hp & Hlast & Ho & Hin)]; [left; exact Ho|right].
  split; [exact Hlen|].
  assert (Hpos : (0 < length idx)%nat).
  { rewrite <- Hlen. destruct (assignments st); [done|simpl; lia]. }
  rewrite Hlen in Hp.
  replace (Z.to_nat (Z.of_nat (length idx) mod 2 ^ 8 - 1)) with (length idx - 1)%nat in Hp
    by (rewrite Z.mod_small; lia).
  exists (mkAssignment j (best_score st')), p. simpl.
  split; [exact Hlast|]. split; [exact Hj|]. split; [exact Hp|]. split; [exact Ho|].
  apply Hin. rewrite Hitems.
  eapply build_index_valid, list_elem_of_lookup_2, Hp.
Qed.

(** C6. In a run of [Optimize], an iteration that writes a report starts
    with all the frames, and its last frame, the one of the last tripod, has
    taken a candidate of that tripod, which is among the reported items; so
    every report of the run lists an item from the candidates of the last
    tripod. *)
Theorem reports_come_from_last_frame (undef : Shifts) (items0 : list Item.t)
  (prio_tripods : Z) (book0 : Book) (n : nat) :
  Forall Item.wf items0 ->
  let pm := make_prio_mask undef prio_tripods in
  let idx := build_index items0 in
  let st := Optimize_after undef n items0 prio_tripods book0 in
  let st' := loop_body undef prio_tripods pm idx st in
  (assignments st ≠ [] -> output st' ≠ output st ->
   length (assignments st) = length idx /\
   exists a p,
     last (assignments st') = Some a /\ 0 <= item a /\
     (idx !!! (length idx - 1)%nat) !! Z.to_nat (item a) = Some p /\
     output st' = output st ++ [mkReport (score a) (used_items (items st'))] /\
     p ∈ used_items (items st')) /\
  (forall r, r ∈ output st ->
     exists p, p ∈ idx !!! (length idx - 1)%nat /\ p ∈ report_items r).
Proof.
  intros Hwf pm idx st st'. split.
  - intros Hne Hout.
    destruct (loop_body_report_last undef prio_tripods pm items0 st Hwf) as [H|H];
      [|exact Hne|contradiction|exact H].
    unfold st, Optimize_after. apply after_items_length.
  - unfold st, Optimize_after. clear st st'. subst idx.
    set (st0 := initial items0 book0).
    set (last_list := build_index items0 !!! (length (build_index items0) - 1)%nat).
    set (P := fun st1 : State =>
      length (items st1) = length items0 /\
      forall r, r ∈ output st1 -> exists p, p ∈ last_list /\ p ∈ report_items r).
    assert (HP : P (after undef prio_tripods pm (build_index items0) n st0)).
    { apply (after_with_invariant _ P).
      - intros st1 Hne [Hlen Hall]. split.
        + rewrite loop_body_items_length. exact Hlen.
        + destruct (loop_body_report_last undef prio_tripods pm items0 st1 Hwf Hlen Hne)
            as [->|(_ & a & p & _ & _ & Hp & -> & Hin)]; [exact Hall|].
          fold last_list in Hp.
          intros r Hr. apply elem_of_app in Hr as [Hr|Hr]; [apply Hall, Hr|].
          apply list_elem_of_singleton in Hr as ->. exists p.
          split; [eapply list_elem_of_lookup_2, Hp|exact Hin].
      - split; [reflexivity|]. intros r Hr. inversion Hr. }
    exact (proj2 HP).
Qed.

Lemma scenario_items_fields : Forall Item.wf scenario_items.
Proof. exact (proj1 scenario_items_wf). Qed.

(** The third iteration on the scenario writes its only report. *)
Lemma reports_come_from_last_frame_witness :
  Forall Item.wf scenario_items /\
  let pm := make_prio_mask x86 1 in
  let idx := build_index scenario_items in
  let st := Optimize_after x86 2 scenario_items 1 scenario_book in
  let st' := loop_body x86 1 pm idx st in
  (assignments st ≠ [] -> output st' ≠ output st ->
   length (assignments st) = length idx /\
   exists a p,
     last (assignments st') = Some a /\ 0 <= item a /\
     (idx !!! (length idx - 1)%nat) !! Z.to_nat (item a) = Some p /\
     output st' = output st ++ [mkReport (score a) (used_items (items st'))] /\
     p ∈ used_items (items st')) /\
  (forall r, r ∈ output st ->
     exists p, p ∈ idx !!! (length idx - 1)%nat /\ p ∈ report_items r).
Proof.
  split; [exact scenario_items_fields|].
  apply (reports_come_from_last_frame x86 scenario_items 1 scenario_book 2).
  exact scenario_items_fields.
Defined.

(** ** The redundancy test beyond tripod 31 *)

Lemma land_pow2 (x n : Z) :
  0 <= n -> Z.land x (2 ^ n) = if Z.testbit x n then 2 ^ n else 0.
Proof.
  intros Hn. apply Z.bits_inj'. intros m Hm.
  rewrite Z.land_spec, Z.pow2_bits_eqb by lia.
  destruct (Z.eqb_spec n m) as [->|Hne].
  - destruct (Z.testbit x m) eqn:Hx; simpl.
    + rewrite Z.pow2_bits_true by lia. reflexivity.
    + rewrite Z.bits_0. reflexivity.
  - rewrite andb_false_r.
    destruct (Z.testbit x n); [rewrite Z.pow2_bits_false by lia|rewrite Z.bits_0];
      reflexivity.
Qed.

(** Up to tripod 31 the test of line 93 is the test of the tripod's bit. *)
Lemma redundancy_test_below_32 (undef : Shifts) (inherited n : Z) :
  0 <= n < 31 ->
  Z.land inherited (u64 (shl_int undef n)) ≠ 0 <-> Z.testbit inherited n = true.
Proof.
  intros Hn. unfold shl_int. rewrite bool_decide_eq_true_2 by lia.
  rewrite Z.shiftl_1_l.
  assert (2 ^ n < 2 ^ 31) by (apply Z.pow_lt_mono_r; lia).
  assert (0 < 2 ^ n) by (apply Z.pow_pos_nonneg; lia).
  assert (s32 (2 ^ n) = 2 ^ n) as ->.
  { unfold s32. rewrite Z.mod_small by lia. lia. }
  rewrite u64_small by lia. rewrite land_pow2 by lia.
  destruct (Z.testbit inherited n); split; (congruence || lia).
Qed.

(** C5 (code defect). [1 << 31] is the [int] -2^31, which widens to a mask
    of bits 31 to 63. In the run on [wide_items], 38 iterations lead to the
    first visit of the frame of tripod 32 with an inherited bit set of
    tripods 1 and 33, tripod 32 absent; the test of line 93 is not zero all
    the same, and the iteration pops the frame without trying item 1, the
    free candidate of tripod 32, whatever the undefined shifts give. *)
Theorem redundancy_test_at_frame_32 :
  let idx := build_index wide_items in
  let st := Optimize_after x86 38 wide_items 0 scenario_book in
  (forall undef, u64 (shl_int undef 31) = 2 ^ 64 - 2 ^ 31) /\
  length idx = 33%nat /\
  length (assignments st) = 32%nat /\
  item <$> last (assignments st) = Some NO_ITEM /\
  Score.tripods <$> (score <$> assignments st !! 30%nat) = Some (2 ^ 32 + 1) /\
  Z.testbit (2 ^ 32 + 1) 31 = false /\
  Z.land (2 ^ 32 + 1) (2 ^ 64 - 2 ^ 31) = 2 ^ 32 /\
  idx !!! 31%nat = [1%nat] /\
  busy (items st) (book st) 1 = false /\
  (forall undef,
     loop_body undef 0 (make_prio_mask undef 0) idx st = pop st) /\
  length (assignments (pop st)) = 31%nat.
Proof.
  split; [intros undef; reflexivity|].
  do 8 (split; [vm_compute; reflexivity|]).
  split; [intros undef; vm_compute; reflexivity|].
  vm_compute. reflexivity.
Qed.
(** ** BetterThan at cost zero *)

(** C4 (code defect). [-x.cost] is evaluated in [uint32_t], where the negation
    of 0 is 0 and the negation of any other cost wraps to a large value: with
    equal tripod counts, a score of cost 0 is not better than one of cost 5,
    and the one of cost 5 is better than the one of cost 0. *)
Theorem BetterThan_cost_zero_loses :
  Score.BetterThan (Score.mk 1 0) (Score.mk 1 5) 1 = false /\
  Score.BetterThan (Score.mk 1 5) (Score.mk 1 0) 1 = true /\
  Score.key 1 (Score.mk 1 0) = (1, 1, 0) /\
  Score.key 1 (Score.mk 1 5) = (1, 1, 2 ^ 32 - 5).
Proof. vm_compute. auto. Qed.

(** The same for every positive cost: with the same tripods, cost 0 ranks
    below it. *)
Lemma BetterThan_zero_below_positive (tripods c prio_mask : Z) :
  0 < c < 2 ^ 32 ->
  Score.BetterThan (Score.mk tripods 0) (Score.mk tripods c) prio_mask = false /\
  Score.BetterThan (Score.mk tripods c) (Score.mk tripods 0) prio_mask = true.
Proof.
  intros Hc. unfold Score.BetterThan, Score.key, Score.tuple_lt, Score.tripod_count.
  simpl Score.cost. simpl Score.tripods.
  assert (u32 (- c) = 2 ^ 32 - c) as ->.
  { unfold u32. replace (- c) with (2 ^ 32 - c + -1 * 2 ^ 32) by lia.
    rewrite Z.mod_add by lia. apply Z.mod_small. lia. }
  change (u32 (- 0)) with 0.
  split; repeat case_bool_decide; try reflexivity; lia.
Qed.

(** Between positive costs the lower one ranks higher, as documented. *)
Lemma BetterThan_positive_costs (tripods c1 c2 prio_mask : Z) :
  0 < c1 < 2 ^ 32 -> 0 < c2 < 2 ^ 32 ->
  Score.BetterThan (Score.mk tripods c1) (Score.mk tripods c2) prio_mask
  = bool_decide (c1 < c2).
Proof.
  intros H1 H2. unfold Score.BetterThan, Score.key, Score.tuple_lt, Score.tripod_count.
  simpl Score.cost. simpl Score.tripods.
  assert (forall c, 0 < c < 2 ^ 32 -> u32 (- c) = 2 ^ 32 - c) as Hneg.
  { intros c Hc. unfold u32. replace (- c) with (2 ^ 32 - c + -1 * 2 ^ 32) by lia.
    rewrite Z.mod_add by lia. apply Z.mod_small. lia. }
  rewrite !Hneg by assumption.
  repeat case_bool_decide; try reflexivity; lia.
Qed.

(** C1 (code defect). On the scenario, whatever the undefined shifts give,
    the engine ends on items A and B at cost 8, while item B alone is a
    feasible selection that has the one high-priority tripod, so that the
    assumption of the cut-off of line 95 holds, has the same two tripods
    and costs 3: it is better than the final best score, by the documented
    order and by [BetterThan] alike. *)
Theorem scenario_final_is_not_optimal (undef : Shifts) :
  let pm := make_prio_mask undef 1 in
  option_map best_score (Optimize undef 7 scenario_items 1 scenario_book)
    = Some (Score.mk 3 8) /\
  feasible scenario_items scenario_book [1%nat] = true /\
  selection_score undef scenario_items [1%nat] = Score.mk 3 3 /\
  Z.land (Score.tripods (Score.mk 3 3)) pm = pm /\
  spec_better pm (Score.mk 3 3) (Score.mk 3 8) = true /\
  Score.BetterThan (Score.mk 3 3) (Score.mk 3 8) pm = true.
Proof. vm_compute. auto 10. Qed.

(** The same with the cut-off of line 95 out of play (no high-priority
    tripod): when the only candidate of the last tripod is of a row without
    a slot, nothing is reported and the engine ends on the empty score,
    while item 0 alone is feasible and has one tripod. *)
Lemma last_tripod_blocked_misses_optimum (undef : Shifts) :
  let pm := make_prio_mask undef 0 in
  option_map best_score (Optimize undef 4 blocked_items 0 scenario_book)
    = Some Score.zero /\
  option_map output (Optimize undef 4 blocked_items 0 scenario_book) = Some [] /\
  pm = 0 /\
  feasible blocked_items scenario_book [0%nat] = true /\
  selection_score undef blocked_items [0%nat] = Score.mk 1 0 /\
  spec_better pm (Score.mk 1 0) Score.zero = true /\
  Score.BetterThan (Score.mk 1 0) Score.zero pm = true.
Proof. vm_compute. auto 10. Qed.

(** C2 (code defect). On the scenario the engine ends with items A and B
    selected at cost 8, its only report; B alone (cost 3) is never formed,
    because the frame of tripod 2 is popped as soon as B, taken for tripod 1,
    has brought tripod 2 along. *)
Theorem scenario_ends_with_A_and_B :
  option_map best_score (Optimize x86 7 scenario_items 1 scenario_book)
    = Some (Score.mk 3 8) /\
  option_map output (Optimize x86 7 scenario_items 1 scenario_book)
    = Some [mkReport (Score.mk 3 8) [0; 1]%nat] /\
  Score.key (make_prio_mask x86 1) (Score.mk 3 8) = (1, 2, 2 ^ 32 - 8).
Proof. vm_compute. auto. Qed.

(** C3 (code defect). On the same scenario the engine without prune 2.a ends
    with B and C at cost 4, the engine with it at cost 8. *)
Theorem scenario_prune_changes_result :
  option_map best_score (Optimize x86 7 scenario_items 1 scenario_book)
    = Some (Score.mk 3 8) /\
  option_map best_score
    (Optimize_no_redundancy_prune x86 9 scenario_items 1 scenario_book)
    = Some (Score.mk 3 4).
Proof. vm_compute. auto. Qed.
(** * Further properties of the code *)

(** ** Score: the order and the counts *)

Lemma tuple_lt_trans (a b c : Z * Z * Z) :
  Score.tuple_lt a b = true -> Score.tuple_lt b c = true ->
  Score.tuple_lt a c = true.
Proof.
  destruct a as [[a0 a1] a2], b as [[b0 b1] b2], c as [[c0 c1] c2].
  unfold Score.tuple_lt.
  repeat case_bool_decide; try reflexivity; try discriminate; lia.
Qed.

Lemma tuple_lt_total (a b : Z * Z * Z) :
  Score.tuple_lt a b = false -> Score.tuple_lt b a = false -> a = b.
Proof.
  destruct a as [[a0 a1] a2], b as [[b0 b1] b2]. unfold Score.tuple_lt.
  repeat case_bool_decide; try discriminate; intros _ _.
  repeat f_equal; lia.
Qed.

(** X1. [BetterThan] is a strict order that ranks by the key alone: no score
    is better than itself, two scores are never each better than the other,
    better than is transitive, and two scores neither of which is better
    than the other have the same key. *)
Theorem BetterThan_strict_order (a b c : Score.t) (prio_mask : Z) :
  Score.BetterThan a a prio_mask = false /\
  (Score.BetterThan a b prio_mask = true -> Score.BetterThan b a prio_mask = false) /\
  (Score.BetterThan a b prio_mask = true -> Score.BetterThan b c prio_mask = true ->
   Score.BetterThan a c prio_mask = true) /\
  (Score.BetterThan a b prio_mask = false -> Score.BetterThan b a prio_mask = false ->
   Score.key prio_mask a = Score.key prio_mask b).
Proof.
  split; [apply BetterThan_irrefl|]. split; [apply BetterThan_asym|]. split.
  - unfold Score.BetterThan. intros Hab Hbc. eapply tuple_lt_trans; eassumption.
  - unfold Score.BetterThan. intros Hab Hba. apply tuple_lt_total; assumption.
Qed.

Lemma popcount_pos_positive (p : positive) : 0 < Score.popcount_pos p.
Proof. induction p; simpl; lia. Qed.

Lemma popcount_nonneg (x : Z) : 0 <= Score.popcount x.
Proof. destruct x; simpl; try lia. pose proof (popcount_pos_positive p). lia. Qed.

Lemma popcount_double (n : N) :
  Score.popcount (Z.of_N (N.double n)) = Score.popcount (Z.of_N n).
Proof. destruct n; reflexivity. Qed.

Lemma popcount_succ_double (n : N) :
  Score.popcount (Z.of_N (N.succ_double n)) = 1 + Score.popcount (Z.of_N n).
Proof. destruct n; reflexivity. Qed.

(** Masking never adds bits. *)
Lemma popcount_pos_land (p q : positive) :
  Score.popcount (Z.of_N (Pos.land p q)) <= Score.popcount_pos p.
Proof.
  revert q. induction p as [p IH|p IH|]; intros q; destruct q as [q|q|];
    try (specialize (IH q)); try (pose proof (popcount_pos_positive p));
    simpl Score.popcount_pos.
  - change (Pos.land p~1 q~1) with (N.succ_double (Pos.land p q)).
    rewrite popcount_succ_double. lia.
  - change (Pos.land p~1 q~0) with (N.double (Pos.land p q)).
    rewrite popcount_double. lia.
  - simpl. lia.
  - change (Pos.land p~0 q~1) with (N.double (Pos.land p q)).
    rewrite popcount_double. lia.
  - change (Pos.land p~0 q~0) with (N.double (Pos.land p q)).
    rewrite popcount_double. lia.
  - simpl. lia.
  - simpl. lia.
  - simpl. lia.
  - simpl. lia.
Qed.

Lemma popcount_land (x mask : Z) :
  0 <= x -> 0 <= mask -> Score.popcount (Z.land x mask) <= Score.popcount x.
Proof.
  intros Hx Hm. destruct x as [|p|p]; [reflexivity| |lia].
  destruct mask as [|q|q]; [simpl; pose proof (popcount_pos_positive p); lia| |lia].
  apply popcount_pos_land.
Qed.

Lemma popcount_pos_size (p : positive) : Score.popcount_pos p <= Z.pos (Pos.size p).
Proof. induction p; simpl; lia. Qed.

Lemma popcount_u64 (x : Z) : 0 <= x < 2 ^ 64 -> Score.popcount x <= 64.
Proof.
  intros [Hx Hlt]. destruct x as [|p|p]; [simpl; lia| |lia].
  simpl. pose proof (popcount_pos_size p). pose proof (Pos.size_le p) as Hs.
  assert (Z.pos (Pos.size p) < 65); [|lia].
  apply (Z.pow_lt_mono_r_iff 2); [lia|lia|].
  assert (2 ^ Z.pos (Pos.size p) <= Z.pos p~0) as H2.
  { rewrite <- Pos2Z.inj_pow. apply Pos2Z.pos_le_pos. exact Hs. }
  rewrite Pos2Z.inj_xO in H2. lia.
Qed.

Lemma land_all_mask (x : Z) : 0 <= x < 2 ^ 64 -> Z.land x Score.all_mask = x.
Proof.
  intros Hx. change Score.all_mask with (Z.ones 64).
  rewrite Z.land_ones by lia. apply Z.mod_small. exact Hx.
Qed.

(** X2. The counts printed in a report header are within [int] and ordered:
    for a bit set within [uint64_t] and a mask that is not negative, the
    count under the mask is between 0 and the count of all tripods, which is
    at most 64. *)
Theorem tripod_count_bounds (x : Score.t) (mask : Z) :
  0 <= Score.tripods x < 2 ^ 64 -> 0 <= mask ->
  0 <= Score.tripod_count x mask /\
  Score.tripod_count x mask <= Score.tripod_count x Score.all_mask /\
  Score.tripod_count x Score.all_mask <= 64.
Proof.
  intros Hx Hm. unfold Score.tripod_count. rewrite land_all_mask by exact Hx.
  split; [apply popcount_nonneg|]. split; [apply popcount_land; lia|].
  apply popcount_u64. exact Hx.
Qed.

Lemma tripod_count_bounds_witness :
  0 <= Score.tripods (Score.mk 3 8) < 2 ^ 64 /\ 0 <= 1 /\
  0 <= Score.tripod_count (Score.mk 3 8) 1 /\
  Score.tripod_count (Score.mk 3 8) 1 <= Score.tripod_count (Score.mk 3 8) Score.all_mask /\
  Score.tripod_count (Score.mk 3 8) Score.all_mask <= 64.
Proof.
  split; [simpl; lia|]. split; [lia|].
  apply (tripod_count_bounds (Score.mk 3 8) 1); simpl; lia.
Defined.

Lemma u32_neg (c : Z) : 0 < c < 2 ^ 32 -> u32 (- c) = 2 ^ 32 - c.
Proof.
  intros Hc. unfold u32. replace (- c) with (2 ^ 32 - c + -1 * 2 ^ 32) by lia.
  rewrite Z.mod_add by lia. apply Z.mod_small. lia.
Qed.

(** X3. [BetterThan] is the documented order (more priority tripods, then
    more tripods, then lower cost) whenever the two costs are both zero or
    both positive; only a zero cost against a positive one is ranked the
    other way round. *)
Theorem BetterThan_documented_order (a b : Score.t) (prio_mask : Z) :
  0 <= Score.tripods a < 2 ^ 64 -> 0 <= Score.tripods b < 2 ^ 64 ->
  0 <= Score.cost a < 2 ^ 32 -> 0 <= Score.cost b < 2 ^ 32 ->
  (Score.cost a = 0 <-> Score.cost b = 0) ->
  Score.BetterThan a b prio_mask = spec_better prio_mask a b.
Proof.
  intros Ha Hb Hca Hcb Hzero.
  unfold Score.BetterThan, spec_better, Score.key, spec_key, Score.tripod_count.
  rewrite !land_all_mask by assumption.
  assert (Hneg : forall c, 0 <= c < 2 ^ 32 -> u32 (- c) = if decide (c = 0) then 0 else 2 ^ 32 - c).
  { intros c Hc. destruct (decide (c = 0)) as [->|]; [reflexivity|apply u32_neg; lia]. }
  rewrite !Hneg by assumption. unfold Score.tuple_lt.
  destruct (decide (Score.cost a = 0)) as [Ea|Ea], (decide (Score.cost b = 0)) as [Eb|Eb];
    try tauto; repeat case_bool_decide; try reflexivity; lia.
Qed.

Lemma BetterThan_documented_order_witness :
  0 <= Score.tripods (Score.mk 3 4) < 2 ^ 64 /\
  0 <= Score.tripods (Score.mk 3 8) < 2 ^ 64 /\
  0 <= Score.cost (Score.mk 3 4) < 2 ^ 32 /\
  0 <= Score.cost (Score.mk 3 8) < 2 ^ 32 /\
  (Score.cost (Score.mk 3 4) = 0 <-> Score.cost (Score.mk 3 8) = 0) /\
  Score.BetterThan (Score.mk 3 4) (Score.mk 3 8) 1
  = spec_better 1 (Score.mk 3 4) (Score.mk 3 8).
Proof.
  assert (H34 : 0 <= Score.tripods (Score.mk 3 4) < 2 ^ 64) by (simpl; lia).
  assert (H38 : 0 <= Score.tripods (Score.mk 3 8) < 2 ^ 64) by (simpl; lia).
  assert (C34 : 0 <= Score.cost (Score.mk 3 4) < 2 ^ 32) by (simpl; lia).
  assert (C38 : 0 <= Score.cost (Score.mk 3 8) < 2 ^ 32) by (simpl; lia).
  assert (Hz : Score.cost (Score.mk 3 4) = 0 <-> Score.cost (Score.mk 3 8) = 0)
    by (simpl; lia).
  repeat (split; [assumption|]).
  exact (BetterThan_documented_order (Score.mk 3 4) (Score.mk 3 8) 1 H34 H38 C34 C38 Hz).
Defined.

(** ** The priority mask *)

(** X4. For a priority count from 0 to 63 the mask of line 70 is made of
    exactly the bits of the first [prio_tripods] tripods, whatever the
    undefined shifts give; for 0 it is empty. *)
Theorem make_prio_mask_bits (undef : Shifts) (prio_tripods i : Z) :
  0 <= prio_tripods < 64 -> 0 <= i ->
  make_prio_mask undef prio_tripods = 2 ^ prio_tripods - 1 /\
  Z.testbit (make_prio_mask undef prio_tripods) i = bool_decide (i < prio_tripods).
Proof.
  intros HP Hi.
  assert (Hmask : make_prio_mask undef prio_tripods = Z.ones prio_tripods).
  { unfold make_prio_mask, shl_u64. rewrite bool_decide_eq_true_2 by lia.
    rewrite Z.shiftl_1_l, Z.ones_equiv.
    assert (0 < 2 ^ prio_tripods) by (apply Z.pow_pos_nonneg; lia).
    assert (2 ^ prio_tripods < 2 ^ 64) by (apply Z.pow_lt_mono_r; lia).
    rewrite (u64_small (2 ^ prio_tripods)) by lia. rewrite u64_small by lia. lia. }
  split; [rewrite Hmask, Z.ones_equiv; lia|].
  rewrite Hmask, Z.testbit_ones_nonneg by lia.
  destruct (Z.ltb_spec i prio_tripods); case_bool_decide; try reflexivity; lia.
Qed.

Lemma make_prio_mask_bits_witness :
  0 <= 20 < 64 /\ 0 <= 19 /\
  make_prio_mask x86 20 = 2 ^ 20 - 1 /\
  Z.testbit (make_prio_mask x86 20) 19 = bool_decide (19 < 20).
Proof.
  split; [lia|]. split; [lia|].
  apply (make_prio_mask_bits x86 20 19); lia.
Defined.
(** ** The tripod index: size, order, empty catalogs *)

Lemma max_list_app (l k : list nat) :
  max_list (l ++ k) = (max_list l `max` max_list k)%nat.
Proof. induction l as [|x l IH]; simpl; [reflexivity|]. rewrite IH. lia. Qed.

Lemma index_tripods_length_max (i : nat) (ts : list nat) (idx : list (list nat)) :
  length (fold_left (index_tripod i) ts idx) = (length idx `max` max_list ts)%nat.
Proof.
  revert idx. induction ts as [|t ts IH]; intros idx; simpl; [lia|].
  rewrite IH, length_index_tripod. lia.
Qed.

Lemma index_items_length_max (l : list (nat * Item.t)) (idx : list (list nat)) :
  length (fold_left index_item l idx)
  = (length idx `max` max_list (concat (Item.tripods <$> l.*2)))%nat.
Proof.
  revert idx. induction l as [|[i it] l IH]; intros idx; simpl; [lia|].
  rewrite IH. unfold index_item. simpl. rewrite index_tripods_length_max, max_list_app.
  rewrite <- Nat.max_assoc. reflexivity.
Qed.

Lemma imap_pair_snd (items : list Item.t) : (imap pair items).*2 = items.
Proof.
  apply list_eq. intros i. rewrite list_lookup_fmap, list_lookup_imap.
  destruct (items !! i); reflexivity.
Qed.

(** X5. The index has one list per tripod up to the largest tripod of the
    catalog, however the tripods are spread over the items: its size is that
    largest tripod, and 0 for a catalog without tripods. *)
Theorem build_index_size (items : list Item.t) :
  length (build_index items) = largest_tripod items.
Proof.
  unfold build_index, largest_tripod.
  rewrite index_items_length_max, imap_pair_snd. simpl. lia.
Qed.

Lemma largest_tripod_none (items : list Item.t) :
  Forall (fun it => Forall (fun t => t = 0%nat) (Item.tripods it)) items ->
  largest_tripod items = 0%nat.
Proof.
  unfold largest_tripod. induction 1 as [|it items Hit _ IH]; [reflexivity|].
  rewrite fmap_cons. simpl concat. rewrite max_list_app, IH.
  assert (max_list (Item.tripods it) = 0%nat) as ->; [|reflexivity].
  induction Hit as [|t ts -> _ IHts]; [reflexivity|]. simpl. exact IHts.
Qed.

(** X6. On a catalog none of whose items has a tripod (the empty catalog
    among them) [Optimize] returns without entering its loop: nothing is
    printed, and catalog, book and best score are as on entry. *)
Theorem Optimize_without_tripods (undef : Shifts) (items0 : list Item.t)
  (prio_tripods : Z) (book0 : Book) (fuel : nat) :
  Forall (fun it => Forall (fun t => t = 0%nat) (Item.tripods it)) items0 ->
  Optimize undef fuel items0 prio_tripods book0
  = Some (mkState items0 book0 [] Score.zero []).
Proof.
  intros Hnone. unfold Optimize, loop, initial.
  rewrite build_index_size, (largest_tripod_none items0 Hnone). simpl.
  destruct fuel; reflexivity.
Qed.

Lemma Optimize_without_tripods_witness :
  Forall (fun it => Forall (fun t => t = 0%nat) (Item.tripods it))
         [Item.mk 3 0 [0; 0; 0]%nat false] /\
  Optimize x86 0 [Item.mk 3 0 [0; 0; 0]%nat false] 20 scenario_book
  = Some (mkState [Item.mk 3 0 [0; 0; 0]%nat false] scenario_book [] Score.zero []).
Proof.
  assert (H : Forall (fun it => Forall (fun t => t = 0%nat) (Item.tripods it))
                     [Item.mk 3 0 [0; 0; 0]%nat false])
    by (repeat constructor).
  split; [exact H|].
  exact (Optimize_without_tripods x86 [Item.mk 3 0 [0; 0; 0]%nat false] 20
           scenario_book 0 H).
Defined.

Lemma ordered_snoc (b : nat) (v : list nat) :
  ordered_up_to b v -> ordered_up_to b (v ++ [b]).
Proof.
  intros [Hord Hle]. split.
  - intros i j x y Hij Hx Hy.
    apply lookup_app_Some in Hy as [Hy|[Hj Hy]].
    + rewrite lookup_app_l in Hx by (apply lookup_lt_Some in Hy; lia).
      eapply Hord; eassumption.
    + destruct (j - length v)%nat; [|destruct n; discriminate].
      injection Hy as <-.
      apply lookup_app_Some in Hx as [Hx|[_ Hx]].
      * apply list_elem_of_lookup_2 in Hx.
        exact (proj1 (Forall_forall _ _) Hle _ Hx).
      * destruct (i - length v)%nat; [|destruct n; discriminate].
        injection Hx as <-. lia.
  - apply Forall_app. split; [exact Hle|]. repeat constructor.
Qed.

Lemma ordered_weaken (b b' : nat) (v : list nat) :
  (b <= b')%nat -> ordered_up_to b v -> ordered_up_to b' v.
Proof.
  intros Hb [Hord Hle]. split; [exact Hord|].
  eapply Forall_impl; [exact Hle|]. simpl. lia.
Qed.

Lemma ordered_nil (b : nat) : ordered_up_to b [].
Proof. split; [|constructor]. intros a c x y _ Hx. discriminate. Qed.

Lemma index_tripod_ordered (i : nat) (idx : list (list nat)) (t : nat) :
  Forall (ordered_up_to i) idx -> Forall (ordered_up_to i) (index_tripod i idx t).
Proof.
  intros H. unfold index_tripod. case_bool_decide; [exact H|].
  apply Forall_alter.
  - case_bool_decide; [|exact H]. apply Forall_resize; [apply ordered_nil|exact H].
  - intros v _. apply ordered_snoc.
Qed.

Lemma index_item_ordered (i : nat) (it : Item.t) (idx : list (list nat)) :
  Forall (ordered_up_to i) idx -> Forall (ordered_up_to i) (index_item idx (i, it)).
Proof.
  unfold index_item. simpl. generalize (Item.tripods it). intros ts. revert idx.
  induction ts as [|t ts IH]; intros idx H; simpl; [exact H|].
  apply IH, index_tripod_ordered, H.
Qed.

Lemma index_items_ordered (l : list Item.t) (k : nat) (idx : list (list nat)) :
  Forall (ordered_up_to k) idx ->
  Forall (ordered_up_to (k + length l))
         (fold_left index_item (imap (fun i => pair (k + i)%nat) l) idx).
Proof.
  revert k idx. induction l as [|it l IH]; intros k idx H; simpl.
  - eapply Forall_impl; [exact H|]. intros v. apply ordered_weaken. lia.
  - rewrite Nat.add_0_r.
    assert (Hext : imap ((fun i => pair (k + i)%nat) ∘ S) l
                   = imap (fun i => pair (S k + i)%nat) l).
    { apply imap_ext. intros i x _. simpl. f_equal. lia. }
    rewrite Hext. replace (k + S (length l))%nat with (S k + length l)%nat by lia.
    apply IH. eapply Forall_impl; [apply index_item_ordered, H|].
    intros v. apply ordered_weaken. lia.
Qed.

(** X7. Every candidate list of the index is in catalog order: the item
    indices never descend along the list, so that the scan of lines 102-105
    tries the candidates of a tripod in the order of the catalog. *)
Theorem build_index_catalog_order (items : list Item.t) (k : nat) :
  catalog_order (build_index items !!! k).
Proof.
  assert (H0 : Forall (ordered_up_to 0) (@nil (list nat))) by constructor.
  pose proof (index_items_ordered items 0 [] H0) as H.
  assert (Hext : imap (fun i => pair (0 + i)%nat) items = imap pair items)
    by (apply imap_ext; intros i x _; reflexivity).
  rewrite Hext in H. fold (build_index items) in H.
  destruct (build_index items !! k) as [v|] eqn:Hv.
  - rewrite (list_lookup_total_correct _ _ _ Hv).
    apply list_elem_of_lookup_2 in Hv.
    exact (proj1 (proj1 (Forall_forall _ _) H v Hv)).
  - rewrite list_lookup_total_alt, Hv. simpl. exact (proj1 (ordered_nil 0)).
Qed.
(** ** The run: reports, frames, bounds *)

Lemma BetterThan_trans (a b c : Score.t) (pm : Z) :
  Score.BetterThan a b pm = true -> Score.BetterThan b c pm = true ->
  Score.BetterThan a c pm = true.
Proof. unfold Score.BetterThan. intros Hab Hbc. eapply tuple_lt_trans; eassumption. Qed.

Section Improving.

Variable undef : Shifts.
Variable prio_tripods prio_mask : Z.
Variable tripods : list (list nat).

Local Abbreviation body := (loop_body undef prio_tripods prio_mask tripods).
Local Abbreviation run := (after undef prio_tripods prio_mask tripods).

Lemma improving_snoc (out : list Report) (r : Report) :
  improving prio_mask out ->
  (forall r', last out = Some r' ->
     Score.BetterThan (report_score r) (report_score r') prio_mask = true) ->
  improving prio_mask (out ++ [r]).
Proof.
  intros Himp Hlast i j ri rj Hij Hi Hj.
  apply lookup_app_Some in Hj as [Hj|[Hge Hj]].
  - rewrite lookup_app_l in Hi by (apply lookup_lt_Some in Hj; lia).
    eapply Himp; eassumption.
  - destruct (j - length out)%nat eqn:Hd; [|destruct n; discriminate].
    injection Hj as <-.
    rewrite lookup_app_l in Hi by lia.
    destruct (last out) as [r'|] eqn:Hl;
      [|apply last_None in Hl; subst out; discriminate].
    specialize (Hlast r' eq_refl). rewrite last_lookup in Hl.
    destruct (decide (i = pred (length out))) as [->|Hne].
    + rewrite Hi in Hl. injection Hl as ->. exact Hlast.
    + eapply BetterThan_trans; [exact Hlast|].
      eapply (Himp i (pred (length out))); [|exact Hi|exact Hl].
      apply lookup_lt_Some in Hi. lia.
Qed.

Lemma loop_body_improving (st : State) :
  assignments st ≠ [] ->
  reports_ok prio_mask st /\ improving prio_mask (output st) ->
  (reports_ok prio_mask (body st) /\ improving prio_mask (output (body st))) /\
  output st `prefix_of` output (body st).
Proof.
  intros Hne [Hok Himp].
  split; [split; [apply loop_body_reports_ok; assumption|]|].
  - destruct (loop_body_report undef prio_tripods prio_mask tripods st Hne)
      as [[_ ->]|(Hb & _ & j & p & _ & _ & _ & -> & _)]; [exact Himp|].
    apply improving_snoc; [exact Himp|]. intros r' Hr'. simpl.
    destruct Hok as [Hbest _]. rewrite Hr' in Hbest. simpl in Hbest.
    rewrite <- Hbest. exact Hb.
  - destruct (loop_body_report undef prio_tripods prio_mask tripods st Hne)
      as [[_ ->]|(_ & _ & j & p & _ & _ & _ & -> & _)]; [reflexivity|].
    apply prefix_app_r. reflexivity.
Qed.

Lemma after_improving (n : nat) (st : State) :
  reports_ok prio_mask st -> improving prio_mask (output st) ->
  improving prio_mask (output (run n st)).
Proof.
  intros Hok Himp.
  apply (after_with_invariant _
           (fun st => reports_ok prio_mask st /\ improving prio_mask (output st)));
    [|split; assumption].
  intros st' Hne H. apply loop_body_improving; assumption.
Qed.

Lemma after_output_prefix (n : nat) (st : State) :
  output st `prefix_of` output (run n st).
Proof.
  unfold after. revert st. induction n as [|n IH]; intros st; [reflexivity|].
  destruct (decide (assignments st = [])) as [E|Hne].
  - rewrite after_with_exit by exact E. reflexivity.
  - rewrite after_with_step by exact Hne. etransitivity; [|apply IH].
    destruct (loop_body_report undef prio_tripods prio_mask tripods st Hne)
      as [[_ ->]|(_ & _ & j & p & _ & _ & _ & -> & _)]; [reflexivity|].
    apply prefix_app_r. reflexivity.
Qed.

End Improving.

(** X8. What [Optimize] prints only grows, and each report is strictly
    better, by [BetterThan], than every report printed before it. *)
Theorem reports_improve (undef : Shifts) (items0 : list Item.t) (prio_tripods : Z)
  (book0 : Book) (n m : nat) :
  let pm := make_prio_mask undef prio_tripods in
  improving pm (output (Optimize_after undef n items0 prio_tripods book0)) /\
  output (Optimize_after undef n items0 prio_tripods book0)
    `prefix_of` output (Optimize_after undef (n + m) items0 prio_tripods book0).
Proof.
  intros pm. unfold Optimize_after. fold pm. split.
  - apply after_improving; [apply initial_reports_ok|].
    intros i j ri rj _ Hi. discriminate.
  - rewrite after_add. apply after_output_prefix.
Qed.

(** X9. After every iteration of a run on a well-formed input, the frames
    hold pairwise different items, the items with the [used] flag set are
    exactly the held ones, and the catalog is the initial one but for the
    flags. *)
Theorem selection_consistent (undef : Shifts) (items0 : list Item.t)
  (prio_tripods : Z) (book0 : Book) (n : nat) :
  wf_items items0 -> all_unused items0 -> wf_book book0 ->
  let st := Optimize_after undef n items0 prio_tripods book0 in
  let held := held_from (build_index items0) 0 (assignments st) in
  NoDup held /\
  (forall i, i ∈ held <-> i ∈ used_items (items st)) /\
  Item.set_used false <$> items st = items0.
Proof.
  intros Hwf Hun Hbk st held.
  destruct (Optimize_after_Inv undef items0 prio_tripods book0 n Hwf Hun Hbk)
    as [(Hclear & Hnd & Hused & _) _].
  split; [exact Hnd|]. split; [|exact Hclear].
  intros i. rewrite used_items_spec. apply Hused.
Qed.

Lemma selection_consistent_witness :
  wf_items scenario_items /\ all_unused scenario_items /\ wf_book scenario_book /\
  let st := Optimize_after x86 3 scenario_items 1 scenario_book in
  let held := held_from (build_index scenario_items) 0 (assignments st) in
  NoDup held /\
  (forall i, i ∈ held <-> i ∈ used_items (items st)) /\
  Item.set_used false <$> items st = scenario_items.
Proof.
  split; [exact scenario_items_wf|].
  split; [exact scenario_items_unused|].
  split; [exact scenario_book_wf|].
  exact (selection_consistent x86 scenario_items 1 scenario_book 3
           scenario_items_wf scenario_items_unused scenario_book_wf).
Defined.

(** X10. In a run on a well-formed input every access of an iteration is
    within bounds: the frame count is a tripod of the index and fits
    [uint8_t], every candidate of that tripod is an item of the catalog
    whose row is a row of the book, and a cursor other than [size_t(-1)]
    is a [size_t] within the candidate list. *)
Theorem run_within_bounds (undef : Shifts) (items0 : list Item.t)
  (prio_tripods : Z) (book0 : Book) (n : nat) :
  wf_items items0 -> all_unused items0 -> wf_book book0 ->
  let idx := build_index items0 in
  let st := Optimize_after undef n items0 prio_tripods book0 in
  let k := length (assignments st) in
  assignments st ≠ [] ->
  (1 <= k <= length idx)%nat /\ (length idx <= 255)%nat /\
  (forall p, p ∈ idx !!! (k - 1)%nat ->
     exists it, items st !! p = Some it /\ (Item.row it < length (book st))%nat) /\
  (forall a, last (assignments st) = Some a -> item a ≠ NO_ITEM ->
     0 <= item a < 2 ^ 64 /\
     (Z.to_nat (item a) < length (idx !!! (k - 1)%nat))%nat).
Proof.
  intros Hwf Hun Hbk idx st k Hne.
  apply (accesses_in_bounds items0 book0 Hwf st); [|exact Hne].
  apply Optimize_after_Inv; assumption.
Qed.

Lemma run_within_bounds_witness :
  wf_items scenario_items /\ all_unused scenario_items /\ wf_book scenario_book /\
  let idx := build_index scenario_items in
  let st := Optimize_after x86 3 scenario_items 1 scenario_book in
  let k := length (assignments st) in
  assignments st ≠ [] /\
  (1 <= k <= length idx)%nat /\ (length idx <= 255)%nat /\
  (forall p, p ∈ idx !!! (k - 1)%nat ->
     exists it, items st !! p = Some it /\ (Item.row it < length (book st))%nat) /\
  (forall a, last (assignments st) = Some a -> item a ≠ NO_ITEM ->
     0 <= item a < 2 ^ 64 /\
     (Z.to_nat (item a) < length (idx !!! (k - 1)%nat))%nat).
Proof.
  split; [exact scenario_items_wf|].
  split; [exact scenario_items_unused|].
  split; [exact scenario_book_wf|].
  assert (Hne : assignments (Optimize_after x86 3 scenario_items 1 scenario_book) ≠ [])
    by (vm_compute; discriminate).
  split; [exact Hne|].
  exact (run_within_bounds x86 scenario_items 1 scenario_book 3
           scenario_items_wf scenario_items_unused scenario_book_wf Hne).
Defined.

(** X11. Up to tripod 31 the redundancy prune does what line 93 intends: on
    the first visit of the frame of tripod [k + 1], with [k < 31], the
    iteration pops the frame, leaving catalog and book alone, when the
    tripod's bit is set in the score of the frame below; when it is clear
    the iteration goes on to the priority test and the candidates. *)
Theorem redundancy_prune_up_to_31 (undef : Shifts) (prio_tripods prio_mask : Z)
  (tripods : list (list nat)) (st : State) (lower : list Assignment) (a : Assignment) :
  assignments st = lower ++ [a] -> item a = NO_ITEM -> (length lower < 31)%nat ->
  let prev := default Assignment_default (last lower) in
  let inherited := Score.tripods (score prev) in
  (Z.testbit inherited (Z.of_nat (length lower)) = true ->
   loop_body undef prio_tripods prio_mask tripods st = pop st) /\
  (Z.testbit inherited (Z.of_nat (length lower)) = false ->
   loop_body undef prio_tripods prio_mask tripods st =
     if bool_decide (Z.land (Score.tripods (score a)) prio_mask ≠ prio_mask)
        && bool_decide (prio_tripods < Z.of_nat (S (length lower)))
     then pop st
     else try_next undef prio_mask tripods (tripods !!! length lower) a prev st).
Proof.
  intros Hst Hitem Hk prev inherited.
  rewrite (loop_body_unfold undef prio_tripods prio_mask tripods st lower a Hst)
    by lia.
  rewrite (bool_decide_eq_false_2 (item a ≠ NO_ITEM)) by (intros H; exact (H Hitem)).
  fold prev. fold inherited.
  pose proof (redundancy_test_below_32 undef inherited (Z.of_nat (length lower))
                ltac:(lia)) as Htest.
  split; intros Hbit.
  - rewrite bool_decide_eq_true_2 by (apply Htest; exact Hbit). reflexivity.
  - rewrite bool_decide_eq_false_2; [reflexivity|].
    intros H. apply Htest in H. congruence.
Qed.

Lemma redundancy_prune_up_to_31_witness :
  let st := Optimize_after x86 5 scenario_items 1 scenario_book in
  let lower := [mkAssignment 1 (Score.mk 3 3)] in
  let a := mkAssignment NO_ITEM (Score.mk 3 3) in
  assignments st = lower ++ [a] /\ item a = NO_ITEM /\ (length lower < 31)%nat /\
  let prev := default Assignment_default (last lower) in
  let inherited := Score.tripods (score prev) in
  (Z.testbit inherited (Z.of_nat (length lower)) = true ->
   loop_body x86 1 (make_prio_mask x86 1) (build_index scenario_items) st = pop st) /\
  (Z.testbit inherited (Z.of_nat (length lower)) = false ->
   loop_body x86 1 (make_prio_mask x86 1) (build_index scenario_items) st =
     if bool_decide (Z.land (Score.tripods (score a)) (make_prio_mask x86 1)
                     ≠ make_prio_mask x86 1)
        && bool_decide (1 < Z.of_nat (S (length lower)))
     then pop st
     else try_next x86 (make_prio_mask x86 1) (build_index scenario_items)
            (build_index scenario_items !!! length lower) a prev st).
Proof.
  intros st lower a.
  assert (Hst : assignments st = lower ++ [a]) by (vm_compute; reflexivity).
  assert (Hitem : item a = NO_ITEM) by reflexivity.
  assert (Hlen : (length lower < 31)%nat) by (simpl; lia).
  split; [exact Hst|]. split; [exact Hitem|]. split; [exact Hlen|].
  exact (redundancy_prune_up_to_31 x86 1 (make_prio_mask x86 1)
           (build_index scenario_items) st lower a Hst Hitem Hlen).
Defined.
(** ** Reports are feasible selections *)

Lemma used_from_NoDup (k : nat) (its : list Item.t) : NoDup (used_from k its).
Proof.
  revert k. induction its as [|x its IH]; intros k; simpl; [constructor|].
  destruct (Item.used x); [|apply IH].
  constructor; [|apply IH].
  intros Hin. apply used_from_spec in Hin as [Hle _]. lia.
Qed.

Lemma cleared_static (its items0 : list Item.t) (p : nat) :
  Item.set_used false <$> its = items0 ->
  Item.row (items0 !!! p) = Item.row (its !!! p) /\
  Item.cost (items0 !!! p) = Item.cost (its !!! p) /\
  Item.tripods (items0 !!! p) = Item.tripods (its !!! p).
Proof.
  intros <-. rewrite !list_lookup_total_alt, list_lookup_fmap.
  destruct (its !! p) as [it|]; simpl; auto.
Qed.

Lemma count_used_from (c : nat) (pre its : list Item.t) :
  length (filter (fun p => Item.row ((pre ++ its) !!! p) = c)
                 (used_from (length pre) its))
  = length (filter (fun it => Item.used it = true /\ Item.row it = c) its).
Proof.
  revert pre. induction its as [|x its IH]; intros pre; [reflexivity|].
  specialize (IH (pre ++ [x])).
  rewrite <- app_assoc, length_app in IH. simpl in IH.
  replace (length pre + 1)%nat with (S (length pre)) in IH by lia.
  simpl used_from. rewrite (filter_cons _ x).
  destruct (Item.used x) eqn:Hx.
  - rewrite filter_cons. rewrite list_lookup_total_middle by reflexivity.
    destruct (decide (Item.row x = c)) as [Hr|Hr];
      destruct (decide (true = true /\ Item.row x = c)) as [Hd|Hd];
      try tauto; simpl; rewrite IH; reflexivity.
  - destruct (decide (false = true /\ Item.row x = c)) as [[? _]|_]; [discriminate|].
    exact IH.
Qed.

Lemma count_used_items (c : nat) (its : list Item.t) :
  Z.of_nat (length (filter (fun p => Item.row (its !!! p) = c) (used_items its)))
  = selected_in c its.
Proof. unfold used_items, selected_in. f_equal. exact (count_used_from c [] its). Qed.

Lemma filter_ext_length {A : Type} (P Q : A -> Prop) `{forall x, Decision (P x)}
  `{forall x, Decision (Q x)} (l : list A) :
  (forall x, P x <-> Q x) -> length (filter P l) = length (filter Q l).
Proof.
  intros HPQ. induction l as [|x l IH]; [reflexivity|].
  rewrite !filter_cons. destruct (decide (P x)), (decide (Q x)); simpl; try lia;
    exfalso; firstorder.
Qed.

(** The used items of a state that satisfies the invariant are a feasible
    selection. *)
Lemma Inv_feasible (items0 : list Item.t) (book0 : Book) (st : State) :
  Inv items0 book0 st -> feasible items0 book0 (used_items (items st)) = true.
Proof.
  intros [(Hclear & _ & _ & _ & Hrow & _) _]. unfold feasible.
  apply andb_true_intro. split; [apply andb_true_intro; split|].
  - apply bool_decide_eq_true. apply used_from_NoDup.
  - apply forallb_forall. intros p Hp. apply bool_decide_eq_true.
    apply list_elem_of_In, used_items_spec in Hp as (it & Hit & _).
    rewrite <- Hclear, length_fmap. eapply lookup_lt_Some. exact Hit.
  - apply forallb_forall. intros c Hc. apply bool_decide_eq_true.
    apply in_seq in Hc. destruct (Hrow c ltac:(lia)) as [Hpos Heq].
    rewrite (filter_ext_length _ (fun p => Item.row (items st !!! p) = c)).
    + rewrite count_used_items. lia.
    + intros p. destruct (cleared_static (items st) items0 p Hclear) as [-> _].
      reflexivity.
Qed.

(** An iteration that prints leaves the frame vector full. *)
Lemma loop_body_report_full (undef : Shifts) (prio_tripods prio_mask : Z)
  (tripods : list (list nat)) (st : State) :
  output (loop_body undef prio_tripods prio_mask tripods st) ≠ output st ->
  length (assignments (loop_body undef prio_tripods prio_mask tripods st))
  = length tripods.
Proof.
  assert (Hnext : forall v a prev st1,
    output (try_next undef prio_mask tripods v a prev st1) ≠ output st1 ->
    length (assignments (try_next undef prio_mask tripods v a prev st1))
    = length tripods).
  { intros v a prev st1.
    destruct (try_next_cases undef prio_mask tripods v a prev st1)
      as [-> | (j & p & _ & _ & _ & ->)]; [intros H; destruct (H eq_refl)|].
    unfold take_item. case_bool_decide as Hlen; [intros H; destruct (H eq_refl)|].
    destruct (Score.BetterThan _ _ _); simpl; intros H;
      [exact Hlen|destruct (H eq_refl)]. }
  unfold loop_body. destruct (bool_decide (item _ ≠ NO_ITEM)).
  - intros H. apply Hnext. exact H.
  - destruct (bool_decide (Z.land _ _ ≠ 0)); [intros H; destruct (H eq_refl)|].
    destruct (_ && _); [intros H; destruct (H eq_refl)|]. apply Hnext.
Qed.

Section Feasible.

Variable undef : Shifts.
Variable prio_tripods : Z.
Variable items0 : list Item.t.
Variable book0 : Book.

Hypothesis items0_wf : wf_items items0.
Hypothesis items0_unused : all_unused items0.
Hypothesis book0_wf : wf_book book0.

(** Every report lists the used items of a state that satisfies the
    invariant. *)
Lemma reports_from_Inv (n : nat) (r : Report) :
  r ∈ output (Optimize_after undef n items0 prio_tripods book0) ->
  exists st, Inv items0 book0 st /\ assignments st ≠ [] /\
             report_items r = used_items (items st) /\
             (exists a, last (assignments st) = Some a /\ score a = report_score r) /\
             length (assignments st) = length (build_index items0).
Proof.
  unfold Optimize_after.
  set (pm := make_prio_mask undef prio_tripods).
  set (idx := build_index items0).
  set (P := fun st : State =>
    Inv items0 book0 st /\
    forall r, r ∈ output st ->
      exists st', Inv items0 book0 st' /\ assignments st' ≠ [] /\
                  report_items r = used_items (items st') /\
                  (exists a, last (assignments st') = Some a /\ score a = report_score r) /\
                  length (assignments st') = length idx).
  assert (HP : P (after undef prio_tripods pm idx n (initial items0 book0))).
  { apply (after_with_invariant _ P).
    - intros st Hne [HI Hall].
      assert (HI' : Inv items0 book0 (loop_body undef prio_tripods pm idx st))
        by (apply loop_body_Inv; assumption).
      split; [exact HI'|].
      destruct (loop_body_report undef prio_tripods pm idx st Hne)
        as [[_ ->]|(_ & Hlen & j & p & _ & _ & Hlast & Hout & _)]; [exact Hall|].
      intros r0 Hr. rewrite Hout in Hr.
      apply elem_of_app in Hr as [Hr|Hr]; [apply Hall, Hr|].
      apply list_elem_of_singleton in Hr as ->.
      exists (loop_body undef prio_tripods pm idx st).
      split; [exact HI'|]. split.
      + intros E. rewrite E in Hlast. discriminate.
      + split; [reflexivity|]. split; [eexists; split; [exact Hlast|reflexivity]|].
        apply loop_body_report_full. rewrite Hout. intros Heq.
        apply (f_equal length) in Heq. rewrite length_app in Heq. simpl in Heq. lia.
    - split.
      + split; simpl; [apply initial_consistent; assumption|rewrite length_replicate; lia].
      + intros r0 Hr. inversion Hr. }
  intros Hr. exact (proj2 HP r Hr).
Qed.

End Feasible.

(** X12. Every report of a run on a well-formed input lists a feasible
    selection: items of the catalog, each once, and in no row more of them
    than the book had free slots on entry. *)
Theorem reports_are_feasible (undef : Shifts) (items0 : list Item.t)
  (prio_tripods : Z) (book0 : Book) (n : nat) (r : Report) :
  wf_items items0 -> all_unused items0 -> wf_book book0 ->
  r ∈ output (Optimize_after undef n items0 prio_tripods book0) ->
  feasible items0 book0 (report_items r) = true.
Proof.
  intros Hwf Hun Hbk Hr.
  destruct (reports_from_Inv undef prio_tripods items0 book0 Hwf Hun Hbk n r Hr)
    as (st & HI & _ & -> & _).
  apply Inv_feasible. exact HI.
Qed.

Lemma scenario_report_printed :
  mkReport (Score.mk 3 8) [0; 1]%nat
  ∈ output (Optimize_after x86 3 scenario_items 1 scenario_book).
Proof. vm_compute. left. Qed.

Lemma reports_are_feasible_witness :
  wf_items scenario_items /\ all_unused scenario_items /\ wf_book scenario_book /\
  mkReport (Score.mk 3 8) [0; 1]%nat
    ∈ output (Optimize_after x86 3 scenario_items 1 scenario_book) /\
  feasible scenario_items scenario_book
           (report_items (mkReport (Score.mk 3 8) [0; 1]%nat)) = true.
Proof.
  split; [exact scenario_items_wf|].
  split; [exact scenario_items_unused|].
  split; [exact scenario_book_wf|].
  split; [exact scenario_report_printed|].
  exact (reports_are_feasible x86 scenario_items 1 scenario_book 3 _
           scenario_items_wf scenario_items_unused scenario_book_wf
           scenario_report_printed).
Defined.


(** ** The scores of the frames *)

Section Chain.

Variable undef : Shifts.
Variable prio_tripods prio_mask : Z.
Variable tripods : list (list nat).

Local Abbreviation body := (loop_body undef prio_tripods prio_mask tripods).

(** One iteration in full: the frame is popped, or a free candidate [p] at
    cursor [j] is taken on top of the catalog [its1] left by lines 90-92,
    and then a first visit has passed the priority test of line 95. *)
Lemma loop_body_step (st : State) (lower : list Assignment) (a : Assignment) :
  assignments st = lower ++ [a] -> (length lower < 255)%nat ->
  let v := tripods !!! length lower in
  let prev := default Assignment_default (last lower) in
  assignments (body st) = lower \/
  exists j p its1,
    0 <= j /\ v !! Z.to_nat j = Some p /\
    (its1 = items st \/
     its1 = alter (Item.set_used false) (v !!! Z.to_nat (item a)) (items st)) /\
    (item a = NO_ITEM ->
     Z.land (Score.tripods (score a)) prio_mask = prio_mask \/
     ~ prio_tripods < Z.of_nat (S (length lower))) /\
    assignments (body st) =
      resize (length tripods) (mkAssignment NO_ITEM (frame_score undef its1 prev p))
             (lower ++ [mkAssignment j (frame_score undef its1 prev p)]).
Proof.
  intros Hst Hlen v prev.
  rewrite (loop_body_unfold undef prio_tripods prio_mask tripods st lower a Hst Hlen).
  fold v prev.
  assert (Hnext : forall st1,
    assignments st1 = lower ++ [a] ->
    (items st1 = items st \/
     items st1 = alter (Item.set_used false) (v !!! Z.to_nat (item a)) (items st)) ->
    (item a = NO_ITEM ->
     Z.land (Score.tripods (score a)) prio_mask = prio_mask \/
     ~ prio_tripods < Z.of_nat (S (length lower))) ->
    assignments (try_next undef prio_mask tripods v a prev st1) = lower \/
    exists j p its1,
      0 <= j /\ v !! Z.to_nat j = Some p /\
      (its1 = items st \/
       its1 = alter (Item.set_used false) (v !!! Z.to_nat (item a)) (items st)) /\
      (item a = NO_ITEM ->
       Z.land (Score.tripods (score a)) prio_mask = prio_mask \/
       ~ prio_tripods < Z.of_nat (S (length lower))) /\
      assignments (try_next undef prio_mask tripods v a prev st1) =
        resize (length tripods) (mkAssignment NO_ITEM (frame_score undef its1 prev p))
               (lower ++ [mkAssignment j (frame_score undef its1 prev p)])).
  { intros st1 Hst1 Hits Hprio.
    destruct (try_next_cases undef prio_mask tripods v a prev st1)
      as [-> | (j & p & Hj & Hp & _ & ->)].
    - left. eapply pop_assignments; exact Hst1.
    - right. exists j, p, (items st1).
      pose proof (u64_range (item a + 1)).
      split; [lia|]. split; [exact Hp|]. split; [exact Hits|]. split; [exact Hprio|].
      rewrite take_item_assignments, Hst1, removelast_last.
      rewrite (list_lookup_total_correct _ _ _ Hp). reflexivity. }
  case_bool_decide as Hitem.
  - apply Hnext; [exact Hst|right; reflexivity|]. intros E. contradiction.
  - case_bool_decide as Hred; [left; eapply pop_assignments; exact Hst|].
    destruct (bool_decide (Z.land (Score.tripods (score a)) prio_mask ≠ prio_mask))
      eqn:Hpm;
      [destruct (bool_decide (prio_tripods < Z.of_nat (S (length lower)))) eqn:Hpt|];
      simpl.
    + left. eapply pop_assignments; exact Hst.
    + apply Hnext; [exact Hst|left; reflexivity|].
      intros _. right. apply bool_decide_eq_false in Hpt. exact Hpt.
    + apply Hnext; [exact Hst|left; reflexivity|].
      intros _. left. apply bool_decide_eq_false in Hpm.
      destruct (decide (Z.land (Score.tripods (score a)) prio_mask = prio_mask));
        [assumption|contradiction].
Qed.

(** The flags play no part in a score. *)
Lemma frame_score_static (its items0 : list Item.t) (prev : Assignment) (p : nat) :
  Item.set_used false <$> its = items0 ->
  frame_score undef its prev p = frame_score undef items0 prev p.
Proof.
  intros H. unfold frame_score.
  destruct (cleared_static its items0 p H) as (_ & -> & ->). reflexivity.
Qed.

Lemma frame_below_app_l (F G : list Assignment) (k : nat) :
  (k <= length F)%nat -> frame_below (F ++ G) k = frame_below F k.
Proof.
  intros Hk. destruct k as [|k]; [reflexivity|]. simpl.
  apply lookup_total_app_l. lia.
Qed.

Lemma frame_below_last (lower : list Assignment) :
  frame_below lower (length lower) = default Assignment_default (last lower).
Proof.
  destruct lower as [|x l _] using rev_ind; [reflexivity|].
  rewrite length_app, last_snoc. simpl.
  replace (length l + 1)%nat with (S (length l)) by lia. simpl.
  rewrite lookup_total_app_r by lia. rewrite Nat.sub_diag. reflexivity.
Qed.

Lemma chained_prefix (its : list Item.t) (F G : list Assignment) :
  chained undef tripods its (F ++ G) -> chained undef tripods its F.
Proof.
  intros H k a Ha.
  rewrite <- (frame_below_app_l F G k) by (apply lookup_lt_Some in Ha; lia).
  apply H. apply lookup_app_l_Some. exact Ha.
Qed.

(** Taking a candidate and pushing fresh frames keeps the chain. *)
Lemma chained_take (its : list Item.t) (lower : list Assignment) (j : Z) (p : nat) :
  chained undef tripods its lower ->
  (length lower < length tripods)%nat ->
  j ≠ NO_ITEM -> (tripods !!! length lower) !!! Z.to_nat j = p ->
  let sc := frame_score undef its (default Assignment_default (last lower)) p in
  chained undef tripods its
          (resize (length tripods) (mkAssignment NO_ITEM sc)
                  (lower ++ [mkAssignment j sc])).
Proof.
  intros Hch Hlen Hj Hp sc k a Ha.
  rewrite resize_ge in Ha |- * by (rewrite length_app; simpl; lia).
  rewrite <- app_assoc in Ha |- *.
  apply lookup_app_Some in Ha as [Ha|[Hge Ha]].
  - rewrite frame_below_app_l by (apply lookup_lt_Some in Ha; lia).
    apply Hch. exact Ha.
  - destruct (k - length lower)%nat as [|d] eqn:Hd.
    + simpl in Ha. injection Ha as <-. replace k with (length lower) by lia.
      rewrite frame_below_app_l by lia. rewrite frame_below_last.
      unfold frame_item. simpl. rewrite bool_decide_eq_false_2 by exact Hj.
      rewrite Hp. reflexivity.
    + simpl in Ha. apply lookup_replicate in Ha as [-> Hd'].
      change (frame_item tripods k (mkAssignment NO_ITEM sc)) with (@None nat).
      destruct k as [|k]; [lia|]. simpl.
      rewrite lookup_total_app_r by lia.
      replace (k - length lower)%nat with d by lia.
      destruct d as [|d]; [reflexivity|]. simpl.
      rewrite lookup_total_replicate_2 by lia.
      reflexivity.
Qed.

Lemma priority_kept_prefix (F G : list Assignment) :
  priority_kept prio_tripods prio_mask (F ++ G) ->
  priority_kept prio_tripods prio_mask F.
Proof.
  intros H k a Ha Hitem Hk.
  rewrite <- (frame_below_app_l F G k) by (apply lookup_lt_Some in Ha; lia).
  apply (H k a); [apply lookup_app_l_Some; exact Ha|exact Hitem|exact Hk].
Qed.

Lemma priority_kept_take (lower : list Assignment) (j : Z) (sc : Score.t) :
  priority_kept prio_tripods prio_mask lower ->
  (length lower < length tripods)%nat ->
  (prio_tripods < Z.of_nat (S (length lower)) ->
   Z.land (Score.tripods (score (default Assignment_default (last lower)))) prio_mask
   = prio_mask) ->
  priority_kept prio_tripods prio_mask
                (resize (length tripods) (mkAssignment NO_ITEM sc)
                        (lower ++ [mkAssignment j sc])).
Proof.
  intros Hpk Hlen Htop k a Ha Hitem Hk.
  rewrite resize_ge in Ha |- * by (rewrite length_app; simpl; lia).
  rewrite <- app_assoc in Ha |- *.
  apply lookup_app_Some in Ha as [Ha|[Hge Ha]].
  - rewrite frame_below_app_l by (apply lookup_lt_Some in Ha; lia).
    apply (Hpk k a); assumption.
  - destruct (k - length lower)%nat as [|d] eqn:Hd.
    + replace k with (length lower) in * by lia.
      rewrite frame_below_app_l by lia. rewrite frame_below_last.
      apply Htop. exact Hk.
    + simpl in Ha. apply lookup_replicate in Ha as [-> _]. simpl in Hitem. done.
Qed.

(** The last score of a chain is the score of the items the frames hold, in
    the order of the frames. *)
Lemma chained_selection (its : list Item.t) (F : list Assignment) :
  chained undef tripods its F ->
  score (default Assignment_default (last F))
  = selection_score undef its (held_from tripods 0 F).
Proof.
  induction F as [|a lower IH] using rev_ind; intros Hch; [reflexivity|].
  specialize (IH (chained_prefix _ _ _ Hch)).
  rewrite last_snoc, held_from_snoc. simpl default.
  rewrite (Hch (length lower) a) by (apply list_lookup_middle; reflexivity).
  rewrite frame_below_app_l by lia. rewrite frame_below_last.
  unfold selection_score in *.
  destruct (frame_item tripods (length lower) a) as [p|]; simpl.
  - rewrite fold_left_app. simpl. rewrite <- IH. reflexivity.
  - rewrite app_nil_r. exact IH.
Qed.

Lemma held_from_length (k : nat) (F : list Assignment) :
  (length (held_from tripods k F) <= length F)%nat.
Proof.
  revert k. induction F as [|a F IH]; intros k; simpl; [lia|].
  rewrite length_app. specialize (IH (S k)).
  destruct (frame_item tripods k a); simpl; lia.
Qed.

End Chain.

(** ** The score of a selection *)

Section SelectionScore.

Variable undef : Shifts.

Lemma add_tripods_lor (x : Z) (ts : list nat) :
  add_tripods undef x ts = Z.lor x (add_tripods undef 0 ts).
Proof.
  unfold add_tripods. revert x. induction ts as [|t ts IH]; intros x; simpl.
  - rewrite Z.lor_0_r. reflexivity.
  - rewrite IH. rewrite (IH (if bool_decide (t = 0%nat) then 0 else _)).
    case_bool_decide; [reflexivity|].
    rewrite Z.lor_assoc. reflexivity.
Qed.

(** Bits already present stay (line 112 only sets bits). *)
Lemma add_tripods_keeps (x mask : Z) (ts : list nat) :
  Z.land x mask = mask -> Z.land (add_tripods undef x ts) mask = mask.
Proof.
  intros H. rewrite add_tripods_lor. apply Z.bits_inj'. intros n Hn.
  apply (f_equal (fun z => Z.testbit z n)) in H.
  rewrite Z.land_spec in H. rewrite Z.land_spec, Z.lor_spec.
  destruct (Z.testbit mask n); [|apply andb_false_r].
  rewrite andb_true_r in H |- *. rewrite H. reflexivity.
Qed.

Lemma shl_u64_defined (t : nat) :
  (1 <= t <= 64)%nat -> shl_u64 undef (Z.of_nat t - 1) = 2 ^ (Z.of_nat t - 1).
Proof.
  intros Ht. unfold shl_u64. rewrite bool_decide_eq_true_2 by lia.
  rewrite Z.shiftl_1_l. apply u64_small. split; [apply Z.pow_nonneg; lia|].
  apply Z.pow_lt_mono_r; lia.
Qed.

(** With tripods up to 64, the bits of a score are those it had and those of
    the tripods added. *)
Lemma add_tripods_bit (x : Z) (ts : list nat) (t : nat) :
  Forall (fun u => (u <= 64)%nat) ts -> (1 <= t)%nat ->
  Z.testbit (add_tripods undef x ts) (Z.of_nat t - 1) = true <->
  Z.testbit x (Z.of_nat t - 1) = true \/ t ∈ ts.
Proof.
  intros Hts Ht. unfold add_tripods. revert x.
  induction Hts as [|u ts Hu Hts IH]; intros x; simpl.
  - split; [auto|]. intros [H|H]; [exact H|inversion H].
  - rewrite IH, elem_of_cons. case_bool_decide as Hu0.
    + subst u. split; [tauto|]. intros [H|[H|H]]; [auto|lia|auto].
    + rewrite Z.lor_spec, shl_u64_defined by lia.
      rewrite Z.pow2_bits_eqb by lia.
      rewrite orb_true_iff, Z.eqb_eq.
      split; [intros [[H|H]|H]|intros [H|[H|H]]]; auto.
      * right. left. lia.
      * left. right. lia.
Qed.

Local Abbreviation add_item its :=
  (fun sc p => frame_score undef its (mkAssignment NO_ITEM sc) p).

Lemma frame_score_comm (its : list Item.t) (sc : Score.t) (p q : nat) :
  add_item its (add_item its sc p) q = add_item its (add_item its sc q) p.
Proof.
  unfold frame_score. simpl. f_equal.
  - set (tp := Item.tripods (its !!! p)). set (tq := Item.tripods (its !!! q)).
    rewrite (add_tripods_lor (add_tripods undef _ tp) tq).
    rewrite (add_tripods_lor (add_tripods undef _ tq) tp).
    rewrite (add_tripods_lor _ tp), (add_tripods_lor (Score.tripods sc) tq).
    rewrite <- !Z.lor_assoc. f_equal. apply Z.lor_comm.
  - unfold u32. rewrite !Zplus_mod_idemp_l. f_equal. lia.
Qed.

(** The score of a selection does not depend on the order of its items. *)
Lemma selection_score_perm (its : list Item.t) (sel sel' : list nat) :
  sel ≡ₚ sel' -> selection_score undef its sel = selection_score undef its sel'.
Proof.
  unfold selection_score. generalize Score.zero.
  intros sc H. revert sc.
  induction H as [|p l l' _ IH|p q l|l l' l'' _ IH1 _ IH2]; intros sc; simpl.
  - reflexivity.
  - apply IH.
  - rewrite frame_score_comm. reflexivity.
  - rewrite IH1. apply IH2.
Qed.

Lemma total_cost_cons (its : list Item.t) (p : nat) (sel : list nat) :
  total_cost its (p :: sel) = Item.cost (its !!! p) + total_cost its sel.
Proof. reflexivity. Qed.

Lemma selection_cost_from (its : list Item.t) (sel : list nat) (sc : Score.t) :
  u32 (Score.cost sc) = Score.cost sc ->
  Score.cost (fold_left (add_item its) sel sc)
  = u32 (Score.cost sc + total_cost its sel).
Proof.
  revert sc. induction sel as [|p sel IH]; intros sc Hsc; cbn [fold_left].
  - change (total_cost its []) with 0. rewrite Z.add_0_r. symmetry. exact Hsc.
  - rewrite IH.
    + rewrite total_cost_cons. unfold frame_score. cbn [Score.cost score]. unfold u32.
      rewrite Zplus_mod_idemp_l. f_equal. lia.
    + unfold frame_score. cbn [Score.cost]. unfold u32. apply Z.mod_mod. lia.
Qed.

Lemma total_cost_bound (its : list Item.t) (sel : list nat) :
  Forall Item.wf its ->
  0 <= total_cost its sel <= 65535 * Z.of_nat (length sel).
Proof.
  intros Hwf.
  induction sel as [|p sel IH]; [unfold total_cost; simpl; lia|].
  rewrite total_cost_cons. cbn [length].
  assert (0 <= Item.cost (its !!! p) < 2 ^ 16).
  { rewrite list_lookup_total_alt. destruct (its !! p) as [it|] eqn:E; simpl; [|lia].
    apply list_elem_of_lookup_2 in E.
    apply (proj1 (Forall_forall _ _) Hwf) in E. apply E. }
  lia.
Qed.

Lemma selection_tripods_bit (its : list Item.t) (sel : list nat) (sc : Score.t)
  (t : nat) :
  (forall p u, u ∈ Item.tripods (its !!! p) -> (u <= 64)%nat) -> (1 <= t)%nat ->
  Z.testbit (Score.tripods (fold_left (add_item its) sel sc)) (Z.of_nat t - 1) = true <->
  Z.testbit (Score.tripods sc) (Z.of_nat t - 1) = true \/
  exists p, p ∈ sel /\ t ∈ Item.tripods (its !!! p).
Proof.
  intros Hts Ht. revert sc. induction sel as [|p sel IH]; intros sc; simpl.
  - split; [auto|]. intros [H|(p & H & _)]; [exact H|inversion H].
  - rewrite IH. unfold frame_score. simpl.
    rewrite add_tripods_bit; [|apply Forall_forall; intros u Hu; eapply Hts, Hu|exact Ht].
    split.
    + intros [[H|H]|(q & Hq & H)]; [auto| |].
      * right. exists p. split; [left|exact H].
      * right. exists q. split; [right; exact Hq|exact H].
    + intros [H|(q & Hq & H)]; [auto|].
      apply elem_of_cons in Hq as [->|Hq]; [auto|].
      right. exists q. auto.
Qed.

Lemma largest_tripod_bound (its : list Item.t) (p u : nat) :
  u ∈ Item.tripods (its !!! p) -> (u <= largest_tripod its)%nat.
Proof.
  rewrite list_lookup_total_alt. destruct (its !! p) as [it|] eqn:E; simpl;
    [|intros H; inversion H].
  intros Hu. unfold largest_tripod. apply max_list_elem_of_le.
  apply list_elem_of_In, in_concat. exists (Item.tripods it).
  split; [|apply list_elem_of_In; exact Hu].
  apply list_elem_of_In, list_elem_of_fmap. exists it.
  split; [reflexivity|]. eapply list_elem_of_lookup_2, E.
Qed.

End SelectionScore.

(** ** What a run keeps about the scores *)

Section ChainRun.

Variable undef : Shifts.
Variable prio_tripods : Z.
Variable items0 : list Item.t.
Variable book0 : Book.

Hypothesis items0_wf : wf_items items0.
Hypothesis items0_unused : all_unused items0.
Hypothesis book0_wf : wf_book book0.

Local Abbreviation idx := (build_index items0).
Local Abbreviation pm := (make_prio_mask undef prio_tripods).
Local Abbreviation body := (loop_body undef prio_tripods pm idx).
Local Abbreviation scored0 := (scored undef prio_tripods items0 book0).

Lemma cursor_not_NO_ITEM (k : nat) (j : Z) (p : nat) :
  (idx !!! k) !! Z.to_nat j = Some p -> 0 <= j -> j ≠ NO_ITEM.
Proof.
  intros Hp Hj. apply lookup_lt_Some in Hp.
  pose proof (build_index_sizes_fit items0 items0_wf) as Hfit.
  assert (Z.of_nat (length (idx !!! k)) < 2 ^ 64).
  { rewrite list_lookup_total_alt in Hp |- *.
    destruct (idx !! k) as [v|] eqn:Hv; simpl in *; [|lia].
    eapply (proj1 (Forall_forall _ _) Hfit), list_elem_of_lookup_2, Hv. }
  rewrite NO_ITEM_value. lia.
Qed.

Lemma loop_body_scored (st : State) :
  scored0 st -> assignments st ≠ [] -> scored0 (body st).
Proof.
  intros (HI & Hch & Hpk) Hne.
  assert (HI' : Inv items0 book0 (body st)) by (apply loop_body_Inv; assumption).
  split; [exact HI'|]. clear HI'.
  pose proof (build_index_length items0 (proj1 items0_wf)) as HT.
  destruct HI as [Hcons Hlen].
  destruct (assignments st) as [|a lower _] eqn:E using rev_ind; [done|].
  rewrite length_app in Hlen. simpl in Hlen.
  destruct (loop_body_step undef prio_tripods pm idx st lower a E ltac:(lia))
    as [-> | (j & p & its1 & Hj & Hp & Hits & Hprio & ->)].
  - split; [eapply chained_prefix; exact Hch|eapply priority_kept_prefix; exact Hpk].
  - assert (Hclear : Item.set_used false <$> its1 = items0).
    { destruct Hcons as [Hc _]. destruct Hits as [->| ->]; [exact Hc|].
      rewrite fmap_alter_absorb; [exact Hc|intros []; reflexivity]. }
    rewrite (frame_score_static undef its1 items0 _ p Hclear).
    split.
    + apply chained_take.
      * eapply chained_prefix; exact Hch.
      * lia.
      * eapply cursor_not_NO_ITEM; eassumption.
      * apply list_lookup_total_correct. exact Hp.
    + apply priority_kept_take; [eapply priority_kept_prefix; exact Hpk|lia|].
      intros Hk. rewrite <- frame_below_last.
      rewrite <- (frame_below_app_l lower [a]) by lia.
      destruct (decide (item a = NO_ITEM)) as [Ea|Na].
      * destruct (Hprio Ea) as [Hm|Hn]; [|contradiction].
        pose proof (Hch (length lower) a ltac:(apply list_lookup_middle; reflexivity))
          as Hsc.
        unfold frame_item in Hsc. rewrite bool_decide_eq_true_2 in Hsc by exact Ea.
        rewrite <- Hsc. exact Hm.
      * apply (Hpk (length lower) a);
          [apply list_lookup_middle; reflexivity|exact Na|exact Hk].
Qed.

Lemma initial_scored : scored0 (initial items0 book0).
Proof.
  pose proof (build_index_length items0 (proj1 items0_wf)) as HT.
  split; [|split].
  - split; simpl; [apply initial_consistent; assumption|rewrite length_replicate; lia].
  - intros k a Ha. simpl in Ha. apply lookup_replicate in Ha as [-> Hk].
    change (frame_item idx k Assignment_default) with (@None nat).
    destruct k as [|k]; [reflexivity|]. simpl.
    rewrite lookup_total_replicate_2 by lia. reflexivity.
  - intros k a Ha Hitem. simpl in Ha. apply lookup_replicate in Ha as [-> _].
    destruct Hitem. reflexivity.
Qed.

(** Every report shows the last frame and the used items of a state of the
    run with all its frames, the last of them holding an item. *)
Lemma reports_from_scored (n : nat) (r : Report) :
  r ∈ output (Optimize_after undef n items0 prio_tripods book0) ->
  exists st lower a,
    scored0 st /\ assignments st = lower ++ [a] /\
    length (assignments st) = length idx /\ item a ≠ NO_ITEM /\
    score a = report_score r /\ report_items r = used_items (items st).
Proof.
  unfold Optimize_after.
  set (P := fun st : State =>
    scored0 st /\
    forall r, r ∈ output st ->
      exists st' lower a,
        scored0 st' /\ assignments st' = lower ++ [a] /\
        length (assignments st') = length idx /\ item a ≠ NO_ITEM /\
        score a = report_score r /\ report_items r = used_items (items st')).
  assert (HP : P (after undef prio_tripods pm idx n (initial items0 book0))).
  { apply (after_with_invariant _ P).
    - intros st Hne [HS Hall].
      assert (HS' : scored0 (body st)) by (apply loop_body_scored; assumption).
      split; [exact HS'|].
      destruct (loop_body_report undef prio_tripods pm idx st Hne)
        as [[_ ->]|(_ & Hlen & j & p & Hj & Hp & Hlast & Hout & _)]; [exact Hall|].
      intros r0 Hr. rewrite Hout in Hr.
      apply elem_of_app in Hr as [Hr|Hr]; [apply Hall, Hr|].
      apply list_elem_of_singleton in Hr as ->.
      destruct (assignments (body st)) as [|a lower _] eqn:E using rev_ind;
        [discriminate|].
      rewrite last_snoc in Hlast. injection Hlast as ->.
      exists (body st), lower, (mkAssignment j (best_score (body st))).
      split; [exact HS'|]. split; [exact E|]. split.
      + apply loop_body_report_full. rewrite Hout. intros Heq.
        apply (f_equal length) in Heq. rewrite length_app in Heq. simpl in Heq. lia.
      + split; [|split; reflexivity]. simpl.
        eapply cursor_not_NO_ITEM; eassumption.
    - split; [apply initial_scored|]. intros r0 Hr. inversion Hr. }
  intros Hr. exact (proj2 HP r Hr).
Qed.

(** A report's score is the score of the items it lists, there are at most
    255 of them, and with a last frame beyond the priority tripods the score
    has all of these. *)
Lemma report_selection (n : nat) (r : Report) :
  r ∈ output (Optimize_after undef n items0 prio_tripods book0) ->
  report_score r = selection_score undef items0 (report_items r) /\
  (length (report_items r) <= 255)%nat /\
  (prio_tripods < Z.of_nat (length idx) ->
   Z.land (Score.tripods (report_score r)) pm = pm).
Proof.
  intros Hr.
  destruct (reports_from_scored n r Hr)
    as (st & lower & a & (HI & Hch & Hpk) & HF & Hlen & Hitem & Hsc & Hsel).
  pose proof (build_index_length items0 (proj1 items0_wf)) as HT.
  destruct HI as [(_ & Hnd & Hheld & _) _].
  assert (Hperm : held_from idx 0 (assignments st) ≡ₚ report_items r).
  { rewrite Hsel. apply NoDup_Permutation; [exact Hnd|apply used_from_NoDup|].
    intros i. rewrite Hheld, used_items_spec. reflexivity. }
  split; [|split].
  - rewrite <- (selection_score_perm undef items0 _ _ Hperm).
    rewrite <- chained_selection by exact Hch.
    rewrite HF, last_snoc. simpl. symmetry. exact Hsc.
  - rewrite <- Hperm. pose proof (held_from_length idx 0 (assignments st)). lia.
  - intros Hprio. rewrite <- Hsc.
    assert (Ha : assignments st !! length lower = Some a)
      by (rewrite HF; apply list_lookup_middle; reflexivity).
    rewrite (Hch _ _ Ha). unfold frame_item.
    rewrite bool_decide_eq_false_2 by exact Hitem.
    unfold frame_score. simpl. apply add_tripods_keeps.
    apply (Hpk _ _ Ha Hitem).
    rewrite HF, length_app in Hlen. simpl in Hlen. lia.
Qed.

End ChainRun.

(** X14. The score printed with a report is the score of the items the
    report lists: starting from the empty score, the cost of each listed
    item added in 32 bits and the bits of its tripods set, in any order. *)
Theorem report_score_of_selection (undef : Shifts) (items0 : list Item.t)
  (prio_tripods : Z) (book0 : Book) (n : nat) (r : Report) :
  wf_items items0 -> all_unused items0 -> wf_book book0 ->
  r ∈ output (Optimize_after undef n items0 prio_tripods book0) ->
  report_score r = selection_score undef items0 (report_items r) /\
  forall sel, sel ≡ₚ report_items r ->
    report_score r = selection_score undef items0 sel.
Proof.
  intros Hwf Hun Hbk Hr.
  destruct (report_selection undef prio_tripods items0 book0 Hwf Hun Hbk n r Hr)
    as (Hsc & _).
  split; [exact Hsc|]. intros sel Hsel. rewrite Hsc.
  symmetry. apply selection_score_perm. exact Hsel.
Qed.

Lemma report_score_of_selection_witness :
  wf_items scenario_items /\ all_unused scenario_items /\ wf_book scenario_book /\
  mkReport (Score.mk 3 8) [0; 1]%nat
    ∈ output (Optimize_after x86 3 scenario_items 1 scenario_book) /\
  report_score (mkReport (Score.mk 3 8) [0; 1]%nat)
  = selection_score x86 scenario_items
      (report_items (mkReport (Score.mk 3 8) [0; 1]%nat)) /\
  forall sel, sel ≡ₚ report_items (mkReport (Score.mk 3 8) [0; 1]%nat) ->
    report_score (mkReport (Score.mk 3 8) [0; 1]%nat)
    = selection_score x86 scenario_items sel.
Proof.
  split; [exact scenario_items_wf|].
  split; [exact scenario_items_unused|].
  split; [exact scenario_book_wf|].
  split; [exact scenario_report_printed|].
  exact (report_score_of_selection x86 scenario_items 1 scenario_book 3 _
           scenario_items_wf scenario_items_unused scenario_book_wf
           scenario_report_printed).
Defined.

(** X15. The 32-bit cost of a report never wraps: it is the integer sum of
    the costs of the listed items, which is below [2 ^ 32]. *)
Theorem report_cost_exact (undef : Shifts) (items0 : list Item.t)
  (prio_tripods : Z) (book0 : Book) (n : nat) (r : Report) :
  wf_items items0 -> all_unused items0 -> wf_book book0 ->
  r ∈ output (Optimize_after undef n items0 prio_tripods book0) ->
  Score.cost (report_score r) = total_cost items0 (report_items r) /\
  0 <= total_cost items0 (report_items r) < 2 ^ 32.
Proof.
  intros Hwf Hun Hbk Hr.
  destruct (report_selection undef prio_tripods items0 book0 Hwf Hun Hbk n r Hr)
    as (Hsc & Hlen & _).
  pose proof (total_cost_bound items0 (report_items r) (proj1 Hwf)) as Hb.
  assert (Hrange : 0 <= total_cost items0 (report_items r) < 2 ^ 32) by lia.
  split; [|exact Hrange].
  rewrite Hsc. unfold selection_score.
  rewrite selection_cost_from by reflexivity.
  simpl. unfold u32. apply Z.mod_small. exact Hrange.
Qed.

Lemma report_cost_exact_witness :
  wf_items scenario_items /\ all_unused scenario_items /\ wf_book scenario_book /\
  mkReport (Score.mk 3 8) [0; 1]%nat
    ∈ output (Optimize_after x86 3 scenario_items 1 scenario_book) /\
  Score.cost (report_score (mkReport (Score.mk 3 8) [0; 1]%nat))
  = total_cost scenario_items (report_items (mkReport (Score.mk 3 8) [0; 1]%nat)) /\
  0 <= total_cost scenario_items (report_items (mkReport (Score.mk 3 8) [0; 1]%nat))
    < 2 ^ 32.
Proof.
  split; [exact scenario_items_wf|].
  split; [exact scenario_items_unused|].
  split; [exact scenario_book_wf|].
  split; [exact scenario_report_printed|].
  exact (report_cost_exact x86 scenario_items 1 scenario_book 3 _
           scenario_items_wf scenario_items_unused scenario_book_wf
           scenario_report_printed).
Defined.

(** X16. For a catalog whose tripods are at most 64, the bit set of a report
    is the union of the tripods of the listed items: bit [t - 1] is set
    exactly when some listed item has tripod [t]. *)
Theorem report_tripods_union (undef : Shifts) (items0 : list Item.t)
  (prio_tripods : Z) (book0 : Book) (n : nat) (r : Report) (t : nat) :
  wf_items items0 -> all_unused items0 -> wf_book book0 ->
  (largest_tripod items0 <= 64)%nat -> (1 <= t)%nat ->
  r ∈ output (Optimize_after undef n items0 prio_tripods book0) ->
  Z.testbit (Score.tripods (report_score r)) (Z.of_nat t - 1) = true <->
  exists p, p ∈ report_items r /\ t ∈ Item.tripods (items0 !!! p).
Proof.
  intros Hwf Hun Hbk Hmax Ht Hr.
  destruct (report_selection undef prio_tripods items0 book0 Hwf Hun Hbk n r Hr)
    as (Hsc & _).
  rewrite Hsc. unfold selection_score.
  rewrite selection_tripods_bit; [|intros p u Hu|exact Ht].
  - simpl. rewrite Z.testbit_0_l. split; [intros [H|H]; [discriminate|exact H]|auto].
  - pose proof (largest_tripod_bound items0 p u Hu). lia.
Qed.

Lemma report_tripods_union_witness :
  wf_items scenario_items /\ all_unused scenario_items /\ wf_book scenario_book /\
  (largest_tripod scenario_items <= 64)%nat /\ (1 <= 1)%nat /\
  mkReport (Score.mk 3 8) [0; 1]%nat
    ∈ output (Optimize_after x86 3 scenario_items 1 scenario_book) /\
  (Z.testbit (Score.tripods (report_score (mkReport (Score.mk 3 8) [0; 1]%nat)))
             (Z.of_nat 1 - 1) = true <->
   exists p, p ∈ report_items (mkReport (Score.mk 3 8) [0; 1]%nat) /\
             1%nat ∈ Item.tripods (scenario_items !!! p)).
Proof.
  assert (Hmax : (largest_tripod scenario_items <= 64)%nat) by (vm_compute; lia).
  split; [exact scenario_items_wf|].
  split; [exact scenario_items_unused|].
  split; [exact scenario_book_wf|].
  split; [exact Hmax|]. split; [lia|].
  split; [exact scenario_report_printed|].
  exact (report_tripods_union x86 scenario_items 1 scenario_book 3 _ 1
           scenario_items_wf scenario_items_unused scenario_book_wf
           Hmax ltac:(lia) scenario_report_printed).
Defined.

(** X17. When the catalog has more tripods than [prio_tripods], every report
    of a run has all the bits of the priority mask: the test of line 95
    leaves no other selection to the last frame. *)
Theorem reports_hold_priority_tripods (undef : Shifts) (items0 : list Item.t)
  (prio_tripods : Z) (book0 : Book) (n : nat) (r : Report) :
  wf_items items0 -> all_unused items0 -> wf_book book0 ->
  prio_tripods < Z.of_nat (length (build_index items0)) ->
  r ∈ output (Optimize_after undef n items0 prio_tripods book0) ->
  Z.land (Score.tripods (report_score r)) (make_prio_mask undef prio_tripods)
  = make_prio_mask undef prio_tripods.
Proof.
  intros Hwf Hun Hbk Hprio Hr.
  destruct (report_selection undef prio_tripods items0 book0 Hwf Hun Hbk n r Hr)
    as (_ & _ & H).
  apply H. exact Hprio.
Qed.

Lemma reports_hold_priority_tripods_witness :
  wf_items scenario_items /\ all_unused scenario_items /\ wf_book scenario_book /\
  1 < Z.of_nat (length (build_index scenario_items)) /\
  mkReport (Score.mk 3 8) [0; 1]%nat
    ∈ output (Optimize_after x86 3 scenario_items 1 scenario_book) /\
  Z.land (Score.tripods (report_score (mkReport (Score.mk 3 8) [0; 1]%nat)))
         (make_prio_mask x86 1)
  = make_prio_mask x86 1.
Proof.
  assert (Hprio : 1 < Z.of_nat (length (build_index scenario_items)))
    by (vm_compute; reflexivity).
  split; [exact scenario_items_wf|].
  split; [exact scenario_items_unused|].
  split; [exact scenario_book_wf|].
  split; [exact Hprio|].
  split; [exact scenario_report_printed|].
  exact (reports_hold_priority_tripods x86 scenario_items 1 scenario_book 3 _
           scenario_items_wf scenario_items_unused scenario_book_wf
           Hprio scenario_report_printed).
Defined.
(** ** The frames below the last *)

(** X18. An iteration works on the last frame only: with the frame vector
    within the index, the frames below the last are left as they were, and
    the vector either loses its last frame or is brought to one frame for
    each tripod, the last frame now holding an item and the new frames
    holding none and carrying its score. *)
Theorem loop_body_keeps_lower_frames (undef : Shifts) (prio_tripods prio_mask : Z)
  (tripods : list (list nat)) (st : State) (lower : list Assignment) (a : Assignment) :
  sizes_fit tripods -> (length tripods <= 255)%nat ->
  assignments st = lower ++ [a] ->
  (length (assignments st) <= length tripods)%nat ->
  let st' := loop_body undef prio_tripods prio_mask tripods st in
  assignments st' = lower \/
  exists a',
    assignments st'
    = lower ++ a' :: replicate (length tripods - S (length lower))
                               (mkAssignment NO_ITEM (score a')) /\
    item a' ≠ NO_ITEM.
Proof.
  intros Hfit HT Hst Hlen st'. unfold st'.
  rewrite Hst, length_app in Hlen. simpl in Hlen.
  destruct (loop_body_step undef prio_tripods prio_mask tripods st lower a Hst
              ltac:(lia)) as [-> | (j & p & its1 & Hj & Hp & _ & _ & ->)];
    [left; reflexivity|right].
  eexists (mkAssignment j _). split.
  - rewrite resize_ge by (rewrite length_app; simpl; lia).
    rewrite <- app_assoc, length_app. simpl.
    replace (length lower + 1)%nat with (S (length lower)) by lia. reflexivity.
  - simpl. apply lookup_lt_Some in Hp.
    assert (Z.of_nat (length (tripods !!! length lower)) < 2 ^ 64).
    { rewrite list_lookup_total_alt in Hp |- *.
      destruct (tripods !! length lower) as [v|] eqn:Hv; simpl in *; [|lia].
      eapply (proj1 (Forall_forall _ _) Hfit), list_elem_of_lookup_2, Hv. }
    rewrite NO_ITEM_value. lia.
Qed.

Lemma loop_body_keeps_lower_frames_witness :
  sizes_fit (build_index scenario_items) /\
  (length (build_index scenario_items) <= 255)%nat /\
  assignments (initial scenario_items scenario_book)
    = [Assignment_default] ++ [Assignment_default] /\
  (length (assignments (initial scenario_items scenario_book))
   <= length (build_index scenario_items))%nat /\
  let st' := loop_body x86 1 (make_prio_mask x86 1) (build_index scenario_items)
                       (initial scenario_items scenario_book) in
  (assignments st' = [Assignment_default] \/
   exists a',
     assignments st'
     = [Assignment_default]
       ++ a' :: replicate (length (build_index scenario_items)
                           - S (length [Assignment_default]))
                          (mkAssignment NO_ITEM (score a')) /\
     item a' ≠ NO_ITEM).
Proof.
  assert (Hfit : sizes_fit (build_index scenario_items))
    by (apply build_index_sizes_fit, scenario_items_wf).
  assert (HT : (length (build_index scenario_items) <= 255)%nat)
    by (vm_compute; lia).
  assert (Hst : assignments (initial scenario_items scenario_book)
                = [Assignment_default] ++ [Assignment_default])
    by (vm_compute; reflexivity).
  assert (Hlen : (length (assignments (initial scenario_items scenario_book))
                  <= length (build_index scenario_items))%nat)
    by (vm_compute; lia).
  split; [exact Hfit|]. split; [exact HT|]. split; [exact Hst|]. split; [exact Hlen|].
  exact (loop_body_keeps_lower_frames x86 1 (make_prio_mask x86 1)
           (build_index scenario_items) (initial scenario_items scenario_book)
           [Assignment_default] Assignment_default Hfit HT Hst Hlen).
Defined.
(** ** The candidate scan, and taking and releasing an item *)

Lemma scan_None (its : list Item.t) (bk : Book) (rest : list nat) (j0 : Z) :
  scan its bk rest j0 = None <-> Forall (fun p => busy its bk p = true) rest.
Proof.
  revert j0. induction rest as [|p rest IH]; intros j0; simpl.
  - split; [constructor|reflexivity].
  - destruct (busy its bk p) eqn:Hb.
    + rewrite IH. split; [intros H; constructor; assumption|].
      intros H. inversion H; subst. assumption.
    + split; [discriminate|]. intros H. inversion H; subst. congruence.
Qed.

Lemma scan_first (its : list Item.t) (bk : Book) (rest : list nat) (j0 j : Z) :
  scan its bk rest j0 = Some j <->
  exists n p, j = j0 + Z.of_nat n /\ rest !! n = Some p /\ busy its bk p = false /\
              forall i q, (i < n)%nat -> rest !! i = Some q -> busy its bk q = true.
Proof.
  revert j0. induction rest as [|p rest IH]; intros j0; simpl.
  - split; [discriminate|]. intros (n & q & _ & Hq & _). destruct n; discriminate.
  - destruct (busy its bk p) eqn:Hb.
    + rewrite IH. split.
      * intros (n & q & -> & Hq & Hfree & Hmin). exists (S n), q.
        split; [lia|]. split; [exact Hq|]. split; [exact Hfree|].
        intros i q' Hi Hq'. destruct i as [|i]; simpl in Hq'.
        -- injection Hq' as <-. exact Hb.
        -- apply (Hmin i q'); [lia|exact Hq'].
      * intros (n & q & -> & Hq & Hfree & Hmin). destruct n as [|n]; simpl in Hq.
        -- injection Hq as <-. congruence.
        -- exists n, q. split; [lia|]. split; [exact Hq|]. split; [exact Hfree|].
           intros i q' Hi Hq'. apply (Hmin (S i) q'); [lia|exact Hq'].
    + split.
      * intros [= <-]. exists 0%nat, p. split; [lia|]. split; [reflexivity|].
        split; [exact Hb|]. intros i q Hi. lia.
      * intros (n & q & -> & Hq & Hfree & Hmin). destruct n as [|n]; [f_equal; lia|].
        specialize (Hmin 0%nat p ltac:(lia) eq_refl). congruence.
Qed.

(** X20. The scan of lines 102-105 stops at the first free candidate: it
    gives the cursor of a candidate that is neither used nor of a row
    without a slot, every candidate it passed being used or of such a row,
    and it runs to the end of the list exactly when every candidate is. *)
Theorem scan_first_free (its : list Item.t) (bk : Book) (rest : list nat) (j0 : Z) :
  (forall j, scan its bk rest j0 = Some j <->
     exists n p, j = j0 + Z.of_nat n /\ rest !! n = Some p /\
                 busy its bk p = false /\
                 forall i q, (i < n)%nat -> rest !! i = Some q ->
                             busy its bk q = true) /\
  (scan its bk rest j0 = None <-> Forall (fun p => busy its bk p = true) rest).
Proof. split; [intros j; apply scan_first|apply scan_None]. Qed.

Lemma alter_used_back (p : nat) (its : list Item.t) :
  Item.used (its !!! p) = false ->
  alter (Item.set_used false) p (alter (Item.set_used true) p its) = its.
Proof.
  intros Hu. apply list_eq. intros i. rewrite list_lookup_alter.
  destruct (decide (p = i)) as [->|];
    rewrite list_lookup_alter; [rewrite decide_True by reflexivity|
                                rewrite decide_False by assumption; reflexivity].
  rewrite list_lookup_total_alt in Hu.
  destruct (its !! i) as [it|]; [|reflexivity].
  simpl in *. destruct it; simpl in *. subst. reflexivity.
Qed.

Lemma alter_row_same (b : bool) (p q : nat) (its : list Item.t) :
  Item.row (alter (Item.set_used b) p its !!! q) = Item.row (its !!! q).
Proof.
  rewrite !list_lookup_total_alt, list_lookup_alter.
  destruct (decide (p = q)) as [->|]; [|reflexivity].
  destruct (its !! q) as [it|]; reflexivity.
Qed.

Lemma alter_slot_back (c : nat) (bk : Book) :
  Forall (fun n => 0 <= n < 2 ^ 8) bk -> bk !!! c ≠ 0 ->
  alter (fun n => u8 (n + 1)) c (alter (fun n => u8 (n - 1)) c bk) = bk.
Proof.
  intros Hbk Hc. apply list_eq. intros i. rewrite list_lookup_alter.
  destruct (decide (c = i)) as [->|];
    rewrite list_lookup_alter; [rewrite decide_True by reflexivity|
                                rewrite decide_False by assumption; reflexivity].
  rewrite list_lookup_total_alt in Hc.
  destruct (bk !! i) as [n|] eqn:E; [|reflexivity].
  simpl in *. f_equal.
  assert (0 <= n < 2 ^ 8)
    by (eapply (proj1 (Forall_forall _ _) Hbk), list_elem_of_lookup_2, E).
  rewrite (u8_small (n - 1)) by lia.
  replace (n - 1 + 1) with n by lia. apply u8_small. assumption.
Qed.

(** X21. Releasing undoes taking: when the candidate at cursor [j] is free
    and the book is within [uint8_t], lines 91-92 applied after lines
    107-108 give back the catalog and the book exactly, flags and slot
    counts included. *)
Theorem release_undoes_take (undef : Shifts) (prio_mask : Z)
  (tripods : list (list nat)) (v : list nat) (prev : Assignment) (j : Z) (st : State) :
  Forall (fun n => 0 <= n < 2 ^ 8) (book st) ->
  busy (items st) (book st) (v !!! Z.to_nat j) = false ->
  let taken := take_item undef prio_mask tripods v prev j st in
  items (release (v !!! Z.to_nat j) taken) = items st /\
  book (release (v !!! Z.to_nat j) taken) = book st.
Proof.
  intros Hbk Hfree taken. unfold taken. set (p := v !!! Z.to_nat j) in *.
  unfold busy in Hfree. apply orb_false_iff in Hfree as [Hu Hc].
  apply bool_decide_eq_false in Hc.
  split.
  - simpl. rewrite take_item_items. fold p. apply alter_used_back. exact Hu.
  - simpl. rewrite take_item_items, take_item_book. fold p.
    rewrite alter_row_same. apply alter_slot_back; assumption.
Qed.

Lemma release_undoes_take_witness :
  Forall (fun n => 0 <= n < 2 ^ 8) (book (initial scenario_items scenario_book)) /\
  busy (items (initial scenario_items scenario_book))
       (book (initial scenario_items scenario_book))
       ((build_index scenario_items !!! 0%nat) !!! Z.to_nat 0) = false /\
  let taken := take_item x86 (make_prio_mask x86 1) (build_index scenario_items)
                         (build_index scenario_items !!! 0%nat) Assignment_default 0
                         (initial scenario_items scenario_book) in
  items (release ((build_index scenario_items !!! 0%nat) !!! Z.to_nat 0) taken)
  = items (initial scenario_items scenario_book) /\
  book (release ((build_index scenario_items !!! 0%nat) !!! Z.to_nat 0) taken)
  = book (initial scenario_items scenario_book).
Proof.
  assert (Hbk : Forall (fun n => 0 <= n < 2 ^ 8)
                       (book (initial scenario_items scenario_book)))
    by (repeat constructor; lia).
  assert (Hfree : busy (items (initial scenario_items scenario_book))
                       (book (initial scenario_items scenario_book))
                       ((build_index scenario_items !!! 0%nat) !!! Z.to_nat 0) = false)
    by (vm_compute; reflexivity).
  split; [exact Hbk|]. split; [exact Hfree|].
  exact (release_undoes_take x86 (make_prio_mask x86 1) (build_index scenario_items)
           (build_index scenario_items !!! 0%nat) Assignment_default 0
           (initial scenario_items scenario_book) Hbk Hfree).
Defined.
